(** * Invitation service: the invite store, the chain adapter and the routes

    A shallow embedding of [src/database.ts] (the SQLite-backed
    [InviteDatabase]), [src/contract.ts] ([checkInviteOnChain]) and
    [src/routes/invites.ts] (the three HTTP handlers), followed by the
    properties of the invite lifecycle.

    Effects are explicit: every handler is a computation over a [World]
    (the table, a clock cursor and a counter of [eth_call]s) that ends
    either with a value or with a thrown JavaScript error. *)

From Stdlib Require Import List String Ascii ZArith NArith Lia Bool Sorted.
Import ListNotations.
Local Open Scope string_scope.
Local Open Scope Z_scope.

(** ** Data model ([src/types.ts]) *)

Inductive InviteStatus : Set := NONE | PENDING | USED.

Definition status_eqb (a b : InviteStatus) : bool :=
  match a, b with
  | NONE, NONE | PENDING, PENDING | USED, USED => true
  | _, _ => false
  end.

(** The column [status TEXT]: the text stored for each enum member. *)
Definition status_text (s : InviteStatus) : string :=
  match s with NONE => "none" | PENDING => "pending" | USED => "used" end.

(** Position in the lifecycle [none -> pending -> used]. *)
Definition rank (s : InviteStatus) : Z :=
  match s with NONE => 0 | PENDING => 1 | USED => 2 end.

Record Invite : Set := mkInvite {
  id : Z;
  secret : string;
  signer : string;
  status : InviteStatus;
  updateDate : string
}.

Definition with_status (st : InviteStatus) (date : string) (r : Invite) : Invite :=
  {| id := id r; secret := secret r; signer := signer r;
     status := st; updateDate := date |}.

(** ** JavaScript helpers *)

(** [!s] for a value of type [string | undefined]. *)
Definition falsy (s : option string) : bool :=
  match s with
  | None => true
  | Some "" => true
  | Some _ => false
  end.

Definition js_string (s : option string) : string :=
  match s with Some v => v | None => "" end.

(** [String.prototype.toLowerCase], on the ASCII letters. *)
Definition lower_ascii (c : ascii) : ascii :=
  let n := N_of_ascii c in
  if ((65 <=? n) && (n <=? 90))%N then ascii_of_N (n + 32) else c.

Fixpoint toLowerCase (s : string) : string :=
  match s with
  | EmptyString => EmptyString
  | String c r => String (lower_ascii c) (toLowerCase r)
  end.

Definition startsWith (s p : string) : bool := String.prefix p s.

(** [s.includes(p)]: [p] occurs somewhere in [s]. *)
Fixpoint includes (s p : string) : bool :=
  String.prefix p s ||
  match s with
  | EmptyString => false
  | String _ r => includes r p
  end.

Definition is_hex_digit (c : ascii) : bool :=
  let n := N_of_ascii c in
  (((48 <=? n) && (n <=? 57)) || ((97 <=? n) && (n <=? 102))
   || ((65 <=? n) && (n <=? 70)))%N.

Fixpoint all_hex (s : string) : bool :=
  match s with
  | EmptyString => true
  | String c r => is_hex_digit c && all_hex r
  end.

Definition strip_0x (s : string) : option string :=
  match s with
  | String "0" (String "x" r) => Some r
  | _ => None
  end.

(** [/^(0x)?[0-9a-fA-F]+$/.test(s)] *)
Definition hex_string_re (s : string) : bool :=
  let plain r := negb (String.eqb r "") && all_hex r in
  plain s || match strip_0x s with Some r => plain r | None => false end.

(** [/^(0x)?[0-9a-fA-F]{40}$/.test(s)] *)
Definition address_re (s : string) : bool :=
  let plain r := Nat.eqb (String.length r) 40 && all_hex r in
  plain s || match strip_0x s with Some r => plain r | None => false end.

(** ** Errors, results and the handler monad *)

(** A thrown [Error]; only its [message] is ever inspected. *)
Record Error : Set := mkError { message : string }.

Inductive Result (A : Type) : Type :=
| Ok (a : A)
| Throw (e : Error).
Arguments Ok {A} a.
Arguments Throw {A} e.

(** The table [invites] with its [AUTOINCREMENT] bookkeeping. *)
Record Store : Set := mkStore {
  rows : list Invite;
  sqlite_sequence : Z
}.

(** What a handler can touch: the table, how many times
    [datetime('now')] was read, how many [eth_call]s were sent. *)
Record World : Set := mkWorld {
  db : Store;
  ticks : nat;
  calls : nat
}.

Definition M (A : Type) : Type := World -> Result A * World.

Definition ret {A} (a : A) : M A := fun w => (Ok a, w).

Definition throw {A} (e : Error) : M A := fun w => (Throw e, w).

Definition bind {A B} (m : M A) (k : A -> M B) : M B :=
  fun w =>
    match m w with
    | (Ok a, w') => k a w'
    | (Throw e, w') => (Throw e, w')
    end.

(** [try { m } catch (e) { h e }]: writes made before the throw stay. *)
Definition try_catch {A} (m : M A) (h : Error -> M A) : M A :=
  fun w =>
    match m w with
    | (Ok a, w') => (Ok a, w')
    | (Throw e, w') => h e w'
    end.

Notation "x <- m ;; k" := (bind m (fun x => k))
  (at level 61, m at next level, right associativity).
Notation "m ;;; k" := (bind m (fun _ => k))
  (at level 61, right associativity).

Definition get_rows : M (list Invite) := fun w => (Ok (rows (db w)), w).

Definition set_db (s : Store) : M unit :=
  fun w => (Ok tt, {| db := s; ticks := ticks w; calls := calls w |}).

Definition get_db : M Store := fun w => (Ok (db w), w).

(** ** The environment of the service *)

(** The reply of [client.call]: it throws, or returns an object whose
    [data] field may be missing. *)
Inductive CallOutcome : Set :=
| CallThrows (e : Error)
| CallReturns (data : option string).

Record ChainData : Set := mkChainData {
  account : string;
  claimed : bool
}.

(** Everything the code reads from outside: the SQLite clock, the RPC
    node and viem's codec (none of them is in the repository), the
    secret/address verifier and the configured API key. The clock and
    the node are indexed by the number of earlier reads, so two reads
    may differ. *)
Record Env : Type := mkEnv {
  datetime_now : nat -> string;
  client_call : nat -> string -> CallOutcome;
  encodeFunctionData : string -> Result string;
  decodeAbiParameters : string -> Result ChainData;
  verifySecretMatchesAddress : string -> string -> Result bool;
  process_env_API_KEY : option string
}.

Definition ZERO_ADDRESS : string := "0x0000000000000000000000000000000000000000".

(** ** SQL building blocks *)

(** [WHERE status = ?] *)
Definition where_status (st : InviteStatus) (l : list Invite) : list Invite :=
  filter (fun r => status_eqb (status r) st) l.

Section OrderBy.
Context {K : Type} (le : K -> K -> bool) (key : Invite -> K).

(** [ORDER BY key ASC LIMIT 1] over rows given in rowid order. SQLite
    does not say which of several rows with the least key comes first;
    here the one with the smaller rowid does. *)
Fixpoint order_by_limit1 (l : list Invite) : option Invite :=
  match l with
  | [] => None
  | r :: t =>
      match order_by_limit1 t with
      | None => Some r
      | Some m => if le (key r) (key m) then Some r else Some m
      end
  end.
End OrderBy.

(** [ORDER BY id ASC]: a stable insertion sort on [id]. *)
Fixpoint insert_by_id (r : Invite) (l : list Invite) : list Invite :=
  match l with
  | [] => [r]
  | x :: t => if id r <=? id x then r :: x :: t else x :: insert_by_id r t
  end.

Definition order_by_id_asc (l : list Invite) : list Invite :=
  fold_right insert_by_id [] l.

(** [COUNT( * )] *)
Definition count_rows (l : list Invite) : Z := Z.of_nat (List.length l).

Definition max_rowid (l : list Invite) : Z :=
  fold_right (fun r m => Z.max (id r) m) 0 l.

(** [UPDATE invites SET status = ?, updateDate = ? WHERE id = ?] *)
Definition update_where_id (i : Z) (st : InviteStatus) (date : string)
    (l : list Invite) : list Invite :=
  map (fun r => if id r =? i then with_status st date r else r) l.

Definition UNIQUE_FAILED : Error :=
  mkError "UNIQUE constraint failed: invites.secret".

(** ** [InviteDatabase] ([src/database.ts]) and the chain adapter *)

Section Service.
Variable env : Env.

(** One evaluation of [datetime('now')]. *)
Definition now : M string :=
  fun w => (Ok (datetime_now env (ticks w)),
            {| db := db w; ticks := S (ticks w); calls := calls w |}).

Definition lift {A} (r : Result A) : M A := fun w => (r, w).

Definition getInviteById (i : Z) : M Invite :=
  l <- get_rows ;;
  match find (fun r => id r =? i) l with
  | Some row => ret row
  | None => throw (mkError "Invite not found")
  end.

Definition addInvite (sec sgn : string) : M Invite :=
  date <- now ;;
  s <- get_db ;;
  if existsb (fun r => String.eqb (secret r) sec) (rows s) then
    throw UNIQUE_FAILED
  else
    let rowid := Z.max (sqlite_sequence s) (max_rowid (rows s)) + 1 in
    set_db {| rows := rows s ++ [mkInvite rowid sec sgn NONE date];
              sqlite_sequence := rowid |} ;;;
    getInviteById rowid.

Definition updateInviteStatus (i : Z) (st : InviteStatus) : M unit :=
  date <- now ;;
  s <- get_db ;;
  set_db {| rows := update_where_id i st date (rows s);
            sqlite_sequence := sqlite_sequence s |}.

Definition getNextInvite : M (option Invite) :=
  l <- get_rows ;;
  match order_by_limit1 Z.leb id (where_status NONE l) with
  | Some noneRow =>
      updateInviteStatus (id noneRow) PENDING ;;;
      row <- getInviteById (id noneRow) ;;
      ret (Some row)
  | None =>
      match order_by_limit1 String.leb updateDate (where_status PENDING l) with
      | None => ret None
      | Some pendingRow => ret (Some pendingRow)
      end
  end.

Definition getInviteBySecret (sec : string) : M (option Invite) :=
  l <- get_rows ;;
  ret (find (fun r => String.eqb (secret r) sec) l).

Definition markInviteAsUsed (sec : string) : M bool :=
  invite <- getInviteBySecret sec ;;
  match invite with
  | None => ret false
  | Some inv => updateInviteStatus (id inv) USED ;;; ret true
  end.

Definition getAllInvites : M (list Invite) :=
  l <- get_rows ;;
  ret (order_by_id_asc l).

Record Stats : Set := mkStats {
  total : Z; used : Z; pending : Z; available : Z
}.

Definition getInviteStats : M Stats :=
  l <- get_rows ;;
  let total := count_rows l in
  let used := count_rows (where_status USED l) in
  let pending := count_rows (where_status PENDING l) in
  let available := total - used - pending in
  ret (mkStats total used pending available).

(** [client.call]: one request to the node. *)
Definition eth_call (data : string) : M (option string) :=
  fun w =>
    let w' := {| db := db w; ticks := ticks w; calls := S (calls w) |} in
    match client_call env (calls w) data with
    | CallThrows e => (Throw e, w')
    | CallReturns d => (Ok d, w')
    end.

Definition NOT_CLAIMED : ChainData := mkChainData ZERO_ADDRESS false.

Definition checkInviteOnChain (sgn : string) : M ChainData :=
  try_catch
    (let signerAddress :=
       if startsWith (toLowerCase sgn) "0x" then sgn else "0x" ++ sgn in
     encodedData <- lift (encodeFunctionData env signerAddress) ;;
     result <- eth_call encodedData ;;
     if falsy result then ret NOT_CLAIMED
     else
       decodedData <- lift (decodeAbiParameters env (js_string result)) ;;
       ret (mkChainData (account decodedData) (claimed decodedData)))
    (fun _ => ret NOT_CLAIMED).

(** ** The routes ([src/routes/invites.ts], [src/middleware/auth.ts]) *)

Inductive Body : Set :=
| ErrorJson (error : string)
| InviteJson (invite : Invite)
| CheckJson (isUsed : bool) (invite : Invite)
| HealthJson (stats : Stats).

Record Response : Set := mkResponse { code : Z; body : Body }.

Definition INTERNAL_ERROR : Response := mkResponse 500 (ErrorJson "Internal server error").
Definition NO_INVITES : Response := mkResponse 404 (ErrorJson "No available invites").
Definition CHAIN_FAILED : Response :=
  mkResponse 500 (ErrorJson "Failed to verify invite status on-chain").
Definition CONFLICT : Response := mkResponse 409 (ErrorJson "Secret already exists").

(** The [invite: { id, secret, signer, status, updateDate }] literal. *)
Definition invite_json (r : Invite) : Invite :=
  mkInvite (id r) (secret r) (signer r) (status r) (updateDate r).

Definition addInvite_catch (e : Error) : M Response :=
  if includes (message e) "UNIQUE constraint failed" then ret CONFLICT
  else ret INTERNAL_ERROR.

(** [POST /addInvite], the open variant that checks the chain first. *)
Definition addInvite_route (sec addr : option string) : M Response :=
  try_catch
    (if falsy sec then ret (mkResponse 400 (ErrorJson "Secret is required"))
     else if falsy addr then ret (mkResponse 400 (ErrorJson "Address is required"))
     else if negb (hex_string_re (js_string sec)) then
       ret (mkResponse 400 (ErrorJson "Secret must be a valid hex string"))
     else if negb (address_re (js_string addr)) then
       ret (mkResponse 400 (ErrorJson "Address must be a valid Ethereum address"))
     else
       matches <- lift (verifySecretMatchesAddress env (js_string sec) (js_string addr)) ;;
       if negb matches then
         ret (mkResponse 400 (ErrorJson "Secret does not correspond to the provided address"))
       else
         chainData <- checkInviteOnChain (js_string addr) ;;
         if String.eqb (account chainData) ZERO_ADDRESS then
           ret (mkResponse 400 (ErrorJson "Address does not exist on the contract"))
         else if claimed chainData then
           ret (mkResponse 400 (ErrorJson "Address has already been used"))
         else
           invite <- addInvite (js_string sec) (js_string addr) ;;
           ret (mkResponse 201 (InviteJson (invite_json invite))))
    addInvite_catch.

(** [process.env.API_KEY || 'your-secret-api-key'] *)
Definition API_KEY : string :=
  if falsy (process_env_API_KEY env) then "your-secret-api-key"
  else js_string (process_env_API_KEY env).

(** [authMiddleware] lets the request through. *)
Definition authorized (apiKey : option string) : bool :=
  negb (falsy apiKey || negb (String.eqb (js_string apiKey) API_KEY)).

(** [POST /addInvite], the variant behind [authMiddleware]. *)
Definition addInvite_route_auth (apiKey sec sgn : option string) : M Response :=
  if negb (authorized apiKey) then ret (mkResponse 401 (ErrorJson "Unauthorized"))
  else
    try_catch
      (if falsy sec then ret (mkResponse 400 (ErrorJson "Secret is required"))
       else if falsy sgn then ret (mkResponse 400 (ErrorJson "Signer is required"))
       else if negb (hex_string_re (js_string sec)) then
         ret (mkResponse 400 (ErrorJson "Secret must be a valid hex string"))
       else
         invite <- addInvite (js_string sec) (js_string sgn) ;;
         ret (mkResponse 201 (InviteJson (invite_json invite))))
      addInvite_catch.

(** [GET /getInvite]. The inner [try] either answers ([Some]) or falls
    through to the final [res.json] ([None]). *)
Definition getInvite_route : M Response :=
  try_catch
    (invite <- getNextInvite ;;
     match invite with
     | None => ret NO_INVITES
     | Some invite =>
         answered <-
           (if status_eqb (status invite) PENDING then
              try_catch
                (chainData <- checkInviteOnChain (signer invite) ;;
                 if claimed chainData then
                   markInviteAsUsed (secret invite) ;;;
                   nextInvite <- getNextInvite ;;
                   match nextInvite with
                   | None => ret (Some NO_INVITES)
                   | Some nextInvite =>
                       ret (Some (mkResponse 200 (InviteJson (invite_json nextInvite))))
                   end
                 else ret None)
                (fun chainError => ret None)
            else ret None) ;;
         match answered with
         | Some response => ret response
         | None => ret (mkResponse 200 (InviteJson (invite_json invite)))
         end
     end)
    (fun _ => ret INTERNAL_ERROR).

(** [updatedInvite!.id]: reading a field of [null] throws. *)
Definition non_null (o : option Invite) : M Invite :=
  match o with
  | Some r => ret r
  | None => throw (mkError "Cannot read properties of null")
  end.

(** [POST /checkInvite] *)
Definition checkInvite_route (sec addr : option string) : M Response :=
  try_catch
    (if falsy sec then
       ret (mkResponse 400 (ErrorJson "Secret is required to verify the invite"))
     else if falsy addr then
       ret (mkResponse 400 (ErrorJson "Signer address is required"))
     else
       invite <- getInviteBySecret (js_string sec) ;;
       match invite with
       | None => ret (mkResponse 404 (ErrorJson "Invite not found"))
       | Some invite =>
           if status_eqb (status invite) USED then
             ret (mkResponse 200 (CheckJson true (invite_json invite)))
           else
             try_catch
               (chainData <- checkInviteOnChain (js_string addr) ;;
                if claimed chainData then
                  markInviteAsUsed (js_string sec) ;;;
                  updatedInvite <- getInviteBySecret (js_string sec) ;;
                  u <- non_null updatedInvite ;;
                  ret (mkResponse 200
                         (CheckJson true
                            (mkInvite (id u) (secret u) (signer u) USED (updateDate u))))
                else
                  ret (mkResponse 200 (CheckJson false (invite_json invite))))
               (fun chainError => ret CHAIN_FAILED)
       end)
    (fun _ => ret INTERNAL_ERROR).

(** [GET /health] ([src/index.ts]) *)
Definition health_route : M Response :=
  stats <- getInviteStats ;;
  ret (mkResponse 200 (HealthJson stats)).

(** ** Sequences of requests *)

Inductive Request : Set :=
| PostAddInvite (sec addr : option string)
| PostAddInviteAuth (apiKey sec sgn : option string)
| GetInvite
| PostCheckInvite (sec addr : option string)
| GetHealth.

Definition handle (q : Request) : M Response :=
  match q with
  | PostAddInvite sec addr => addInvite_route sec addr
  | PostAddInviteAuth k sec sgn => addInvite_route_auth k sec sgn
  | GetInvite => getInvite_route
  | PostCheckInvite sec addr => checkInvite_route sec addr
  | GetHealth => health_route
  end.

(** The world after serving the requests one after the other, with
    the responses sent. *)
Fixpoint serve (qs : list Request) (w : World) : list Response * World :=
  match qs with
  | [] => ([], w)
  | q :: rest =>
      let (r, w1) := handle q w in
      let (rs, w2) := serve rest w1 in
      (match r with Ok resp => resp :: rs | Throw _ => rs end, w2)
  end.

End Service.

Definition empty_store : Store := mkStore [] 0.
Definition boot : World := mkWorld empty_store 0%nat 0%nat.

(** ** Notions used in the statements *)

(** The constraints of the table: [id] is the primary key and [secret]
    is [UNIQUE]. *)
Definition table_ok (s : Store) : Prop :=
  NoDup (map id (rows s)) /\ NoDup (map secret (rows s)).

(** [r'] is [r] later in its life: same invite, status not earlier in
    [none -> pending -> used]. *)
Definition later_of (r r' : Invite) : Prop :=
  id r' = id r /\ secret r' = secret r /\ signer r' = signer r /\
  rank (status r) <= rank (status r').

(** Every invite of [s] is still in [s'], and has only moved forward. *)
Definition advances (s s' : Store) : Prop :=
  table_ok s ->
  table_ok s' /\ forall r, In r (rows s) -> exists r', In r' (rows s') /\ later_of r r'.

(** [m] relates the table before and after by [R], whatever it returns. *)
Definition keeps (R : Store -> Store -> Prop) {A} (m : M A) : Prop :=
  forall w, R (db w) (db (snd (m w))).

(** The response hands out the invite with id [i] ([GET /getInvite]
    answers 200 with an invite; [POST /addInvite] answers 201). *)
Definition dispenses (resp : Response) (i : Z) : Prop :=
  code resp = 200 /\ exists inv, body resp = InviteJson inv /\ id inv = i.

(** The adapter's answer for [sgn] in world [w]. *)
Definition oracle_reports (env : Env) (w : World) (sgn : string) (d : ChainData) : Prop :=
  fst (checkInviteOnChain env sgn w) = Ok d.

(** The argument [checkInviteOnChain] passes to [encodeFunctionData]. *)
Definition signerAddress_of (sgn : string) : string :=
  if startsWith (toLowerCase sgn) "0x" then sgn else "0x" ++ sgn.

(** [client.call] gave nothing usable: it threw, or [result.data] is
    missing or empty. *)
Definition call_fails (o : CallOutcome) : Prop :=
  match o with
  | CallThrows _ => True
  | CallReturns d => falsy d = true
  end.

Definition one_more_call (w : World) : World :=
  {| db := db w; ticks := ticks w; calls := S (calls w) |}.

(** The world right after [updateInviteStatus i st]. *)
Definition after_update (env : Env) (i : Z) (st : InviteStatus) (w : World) : World :=
  {| db := {| rows := update_where_id i st (datetime_now env (ticks w)) (rows (db w));
              sqlite_sequence := sqlite_sequence (db w) |};
     ticks := S (ticks w);
     calls := calls w |}.

(** What [checkInviteOnChain sgn] amounts to in world [w], written
    without [try]/[catch]. *)
Definition adapter_outcome (env : Env) (sgn : string) (w : World) : Result ChainData * World :=
  match encodeFunctionData env (signerAddress_of sgn) with
  | Throw _ => (Ok NOT_CLAIMED, w)
  | Ok data =>
      match client_call env (calls w) data with
      | CallThrows _ => (Ok NOT_CLAIMED, one_more_call w)
      | CallReturns d =>
          if falsy d then (Ok NOT_CLAIMED, one_more_call w)
          else
            match decodeAbiParameters env (js_string d) with
            | Throw _ => (Ok NOT_CLAIMED, one_more_call w)
            | Ok c => (Ok (mkChainData (account c) (claimed c)), one_more_call w)
            end
      end
  end.

(** Encoding, the call or decoding fails for [sgn] in world [w]. *)
Definition adapter_failure (env : Env) (sgn : string) (w : World) : Prop :=
  match encodeFunctionData env (signerAddress_of sgn) with
  | Throw _ => True
  | Ok data =>
      match client_call env (calls w) data with
      | CallThrows _ => True
      | CallReturns d =>
          falsy d = true \/
          exists e, decodeAbiParameters env (js_string d) = Throw e
      end
  end.

(** What [POST /checkInvite] amounts to once the invite [inv] has been
    found by its secret, written without [try]/[catch]. *)
Definition checkInvite_answer (env : Env) (addr : string) (inv : Invite) (w : World)
    : Result Response * World :=
  if status_eqb (status inv) USED then
    (Ok (mkResponse 200 (CheckJson true inv)), w)
  else
    let w1 := snd (adapter_outcome env addr w) in
    match fst (adapter_outcome env addr w) with
    | Ok d =>
        if claimed d then
          (Ok (mkResponse 200
                 (CheckJson true (with_status USED (datetime_now env (ticks w)) inv))),
           after_update env (id inv) USED w1)
        else (Ok (mkResponse 200 (CheckJson false inv)), w1)
    | Throw _ => (Ok CHAIN_FAILED, w1)
    end.

(** A table that already holds the secret [sec] is left exactly as it
    is. *)
Definition untouched_if_present (sec : string) (s s' : Store) : Prop :=
  existsb (fun r => String.eqb (secret r) sec) (rows s) = true -> s' = s.

(** Every response [m] can send satisfies [P]. *)
Definition answers (P : Response -> Prop) (m : M Response) : Prop :=
  forall w resp, fst (m w) = Ok resp -> P resp.

Definition never_dispenses (resp : Response) : Prop :=
  forall i, ~ dispenses resp i.

(** ** Notions used for the rest of the code *)

(** [s'] satisfies [I] whenever [s] did. *)
Definition preserves (I : Store -> Prop) (s s' : Store) : Prop := I s -> I s'.

(** Rows are stored by ascending id; ids start at 1 and none exceeds
    the [AUTOINCREMENT] counter. *)
Definition ids_ascending (s : Store) : Prop :=
  StronglySorted Z.lt (map id (rows s)) /\
  Forall (fun r => 1 <= id r <= sqlite_sequence s) (rows s) /\
  0 <= sqlite_sequence s.

(** What the field checks of both [POST /addInvite] handlers let
    through. *)
Definition fields_checked (s : Store) : Prop :=
  Forall (fun r => hex_string_re (secret r) = true /\ signer r <> "") (rows s).

(** The world after one read of the clock. *)
Definition one_more_tick (w : World) : World :=
  {| db := db w; ticks := S (ticks w); calls := calls w |}.

(** The row [addInvite] inserts in world [w]. *)
Definition new_invite (env : Env) (sec sgn : string) (w : World) : Invite :=
  mkInvite (Z.max (sqlite_sequence (db w)) (max_rowid (rows (db w))) + 1)
           sec sgn NONE (datetime_now env (ticks w)).

(** The world after [addInvite] has inserted its row. *)
Definition after_insert (env : Env) (sec sgn : string) (w : World) : World :=
  {| db := {| rows := rows (db w) ++ [new_invite env sec sgn w];
              sqlite_sequence := id (new_invite env sec sgn w) |};
     ticks := S (ticks w);
     calls := calls w |}.

Definition status_codes : list Z := [200; 201; 400; 401; 404; 409; 500].

(** ** Request bodies as they arrive *)

(** A field of a request body: missing, a JSON string, or any other
    JSON value (number, boolean, null, array, object). The handlers
    cast [req.body] to string fields without looking; [Request] embeds
    the bodies whose fields are strings or missing, and a body with a
    field of another kind has no embedding. *)
Inductive JsonField : Set :=
| JAbsent
| JString (s : string)
| JOther.

Definition field_text (f : JsonField) : option (option string) :=
  match f with
  | JAbsent => Some None
  | JString s => Some (Some s)
  | JOther => None
  end.

Inductive RawRequest : Set :=
| RawAddInvite (sec addr : JsonField)
| RawAddInviteAuth (apiKey : option string) (sec sgn : JsonField)
| RawGetInvite
| RawCheckInvite (sec addr : JsonField)
| RawHealth.

Definition typed (q : RawRequest) : option Request :=
  match q with
  | RawAddInvite sec addr =>
      match field_text sec, field_text addr with
      | Some s, Some a => Some (PostAddInvite s a)
      | _, _ => None
      end
  | RawAddInviteAuth k sec sgn =>
      match field_text sec, field_text sgn with
      | Some s, Some g => Some (PostAddInviteAuth k s g)
      | _, _ => None
      end
  | RawGetInvite => Some GetInvite
  | RawCheckInvite sec addr =>
      match field_text sec, field_text addr with
      | Some s, Some a => Some (PostCheckInvite s a)
      | _, _ => None
      end
  | RawHealth => Some GetHealth
  end.

Fixpoint typed_all (qs : list RawRequest) : option (list Request) :=
  match qs with
  | [] => Some []
  | q :: rest =>
      match typed q, typed_all rest with
      | Some r, Some rs => Some (r :: rs)
      | _, _ => None
      end
  end.

(** ** A sample deployment, for concrete runs *)

Definition sample_clock (n : nat) : string :=
  match n with
  | 0%nat => "2024-01-01 00:00:00"
  | 1%nat => "2024-01-01 00:00:01"
  | 2%nat => "2024-01-01 00:00:02"
  | _ => "2024-01-01 00:00:03"
  end.

(** A node that answers every call with [reply]; the decoder reads any
    data as a bound account with the given [claimed] flag. *)
Definition sample_env (reply : CallOutcome) (flag : bool) : Env :=
  {| datetime_now := sample_clock;
     client_call := fun _ _ => reply;
     encodeFunctionData := fun a => Ok a;
     decodeAbiParameters :=
       fun _ => Ok (mkChainData "0x00000000000000000000000000000000000000aa" flag);
     verifySecretMatchesAddress := fun _ _ => Ok true;
     process_env_API_KEY := None |}.

Definition node_down : CallOutcome := CallThrows (mkError "fetch failed").
Definition node_up : CallOutcome := CallReturns (Some "0x01").

Definition invite_A (st : InviteStatus) : Invite :=
  mkInvite 1 "deadbeef" "0x00000000000000000000000000000000000000a1" st
           "2023-12-31 10:00:00".
Definition invite_B (st : InviteStatus) : Invite :=
  mkInvite 2 "cafe" "0x00000000000000000000000000000000000000b2" st
           "2023-12-31 11:00:00".

Definition world_of (l : list Invite) : World :=
  mkWorld (mkStore l (max_rowid l)) 0%nat 0%nat.

(** * Properties *)

(** ** The order on [updateDate] texts *)

Lemma string_compare_lt_trans (a b c : string) :
  String.compare a b = Lt -> String.compare b c = Lt -> String.compare a c = Lt.
Proof.
  revert b c; induction a as [|x a IH]; intros [|y b] [|z c]; simpl;
    try congruence.
  unfold Ascii.compare.
  destruct (N_of_ascii x ?= N_of_ascii y)%N eqn:E1; try discriminate;
    destruct (N_of_ascii y ?= N_of_ascii z)%N eqn:E2; try discriminate.
  - apply N.compare_eq in E1, E2. rewrite E1, E2, N.compare_refl. apply IH.
  - apply N.compare_eq in E1. rewrite E1, E2. reflexivity.
  - apply N.compare_eq in E2. rewrite <- E2, E1. reflexivity.
  - intros _ _. apply N.compare_lt_iff in E1. apply N.compare_lt_iff in E2.
    assert (E3 : (N_of_ascii x ?= N_of_ascii z)%N = Lt)
      by (apply N.compare_lt_iff; eapply N.lt_trans; eassumption).
    rewrite E3. reflexivity.
Qed.

Lemma string_leb_trans (a b c : string) :
  String.leb a b = true -> String.leb b c = true -> String.leb a c = true.
Proof.
  unfold String.leb.
  destruct (String.compare a b) eqn:E1; try discriminate;
    destruct (String.compare b c) eqn:E2; try discriminate; intros _ _.
  - apply String.compare_eq_iff in E1. subst. rewrite E2. reflexivity.
  - apply String.compare_eq_iff in E1. subst. rewrite E2. reflexivity.
  - apply String.compare_eq_iff in E2. subst. rewrite E1. reflexivity.
  - rewrite (string_compare_lt_trans _ _ _ E1 E2). reflexivity.
Qed.

Lemma string_leb_refl (a : string) : String.leb a a = true.
Proof. destruct (String.leb_total a a); assumption. Qed.

(** ** Selection: [WHERE] and [ORDER BY ... LIMIT 1] *)

Lemma status_eqb_eq (a b : InviteStatus) : status_eqb a b = true <-> a = b.
Proof. destruct a, b; simpl; split; congruence. Qed.

Lemma status_eqb_refl (a : InviteStatus) : status_eqb a a = true.
Proof. destruct a; reflexivity. Qed.

Lemma where_status_In (st : InviteStatus) (l : list Invite) (r : Invite) :
  In r (where_status st l) <-> In r l /\ status r = st.
Proof.
  unfold where_status. rewrite filter_In, status_eqb_eq. reflexivity.
Qed.

Lemma where_status_nil (st : InviteStatus) (l : list Invite) :
  where_status st l = [] <-> (forall r, In r l -> status r <> st).
Proof.
  split.
  - intros E r Hr Hs.
    assert (H : In r (where_status st l)) by (apply where_status_In; auto).
    rewrite E in H. destruct H.
  - intros H. destruct (where_status st l) as [|r t] eqn:E; [reflexivity|].
    assert (Hr : In r (where_status st l)) by (rewrite E; left; reflexivity).
    apply where_status_In in Hr. destruct Hr as [Hr Hs].
    destruct (H r Hr Hs).
Qed.

Section OrderByFacts.
Context {K : Type} (le : K -> K -> bool) (key : Invite -> K).
Hypothesis le_total : forall a b, le a b = true \/ le b a = true.
Hypothesis le_trans : forall a b c, le a b = true -> le b c = true -> le a c = true.

Lemma order_by_limit1_none (l : list Invite) :
  order_by_limit1 le key l = None <-> l = [].
Proof.
  destruct l as [|r t]; simpl; [tauto|].
  split; [|discriminate].
  destruct (order_by_limit1 le key t); [destruct (le _ _)|]; discriminate.
Qed.

Lemma order_by_limit1_In (l : list Invite) (m : Invite) :
  order_by_limit1 le key l = Some m -> In m l.
Proof.
  revert m; induction l as [|r t IH]; simpl; intros m; [discriminate|].
  destruct (order_by_limit1 le key t) as [m'|].
  - destruct (le (key r) (key m')); intros E; injection E as <-; auto.
  - intros E; injection E as <-; auto.
Qed.

Lemma order_by_limit1_least (l : list Invite) (m : Invite) :
  order_by_limit1 le key l = Some m ->
  forall r, In r l -> le (key m) (key r) = true.
Proof.
  revert m; induction l as [|x t IH]; simpl; intros m; [discriminate|].
  destruct (order_by_limit1 le key t) as [m'|] eqn:E.
  - destruct (le (key x) (key m')) eqn:Hle; intros Em; injection Em as <-;
      intros r [<-|Hr].
    + destruct (le_total (key x) (key x)); assumption.
    + eapply le_trans; [exact Hle|]. apply (IH m' eq_refl r Hr).
    + destruct (le_total (key x) (key m')); congruence.
    + apply (IH m' eq_refl r Hr).
  - apply order_by_limit1_none in E. subst t.
    intros Em; injection Em as <-. intros r [<-|[]].
    destruct (le_total (key x) (key x)); assumption.
Qed.
End OrderByFacts.

Lemma Z_leb_total (a b : Z) : (a <=? b) = true \/ (b <=? a) = true.
Proof. destruct (Z.leb_spec a b); [left; reflexivity | right; apply Z.leb_le; lia]. Qed.

Lemma Z_leb_trans (a b c : Z) :
  (a <=? b) = true -> (b <=? c) = true -> (a <=? c) = true.
Proof. rewrite !Z.leb_le. lia. Qed.

(** ** Rows, keys and updates *)

Section FindByKey.
Context {K : Type} (key : Invite -> K) (eqb : K -> K -> bool).
Hypothesis eqb_ok : forall a b, eqb a b = true <-> a = b.

Lemma find_unique (l : list Invite) (r : Invite) :
  NoDup (map key l) -> In r l -> find (fun x => eqb (key x) (key r)) l = Some r.
Proof.
  induction l as [|x t IH]; simpl; intros Hnd Hin; [destruct Hin|].
  inversion Hnd as [|? ? Hx Ht]; subst.
  destruct Hin as [->|Hin].
  - rewrite (proj2 (eqb_ok _ _) eq_refl). reflexivity.
  - destruct (eqb (key x) (key r)) eqn:E.
    + apply eqb_ok in E. exfalso. apply Hx. rewrite E. apply in_map. exact Hin.
    + apply IH; assumption.
Qed.

Lemma find_key (l : list Invite) (k : K) (r : Invite) :
  find (fun x => eqb (key x) k) l = Some r -> In r l /\ key r = k.
Proof.
  intros H. apply find_some in H. destruct H as [H1 H2].
  apply eqb_ok in H2. auto.
Qed.

Lemma find_present (l : list Invite) (r : Invite) :
  In r l -> exists x, find (fun x => eqb (key x) (key r)) l = Some x.
Proof.
  intros Hin. destruct (find (fun x => eqb (key x) (key r)) l) eqn:E; eauto.
  exfalso. apply (find_none _ _ E) in Hin.
  rewrite (proj2 (eqb_ok _ _) eq_refl) in Hin. discriminate.
Qed.
End FindByKey.

Lemma string_eqb_ok (a b : string) : String.eqb a b = true <-> a = b.
Proof. apply String.eqb_eq. Qed.

Lemma update_ids i st d l : map id (update_where_id i st d l) = map id l.
Proof.
  unfold update_where_id. rewrite map_map. apply map_ext.
  intros r. destruct (id r =? i); reflexivity.
Qed.

Lemma update_secrets i st d l : map secret (update_where_id i st d l) = map secret l.
Proof.
  unfold update_where_id. rewrite map_map. apply map_ext.
  intros r. destruct (id r =? i); reflexivity.
Qed.

Lemma update_length i st d l : List.length (update_where_id i st d l) = List.length l.
Proof. apply length_map. Qed.

Lemma update_hit i st d l r :
  In r l -> id r = i -> In (with_status st d r) (update_where_id i st d l).
Proof.
  intros Hin Hid. unfold update_where_id. apply in_map_iff.
  exists r. split; [|exact Hin]. rewrite (proj2 (Z.eqb_eq _ _) Hid). reflexivity.
Qed.

Lemma update_miss i st d l r :
  In r l -> id r <> i -> In r (update_where_id i st d l).
Proof.
  intros Hin Hid. unfold update_where_id. apply in_map_iff.
  exists r. split; [|exact Hin]. rewrite (proj2 (Z.eqb_neq _ _) Hid). reflexivity.
Qed.

Lemma update_inv i st d l r' :
  In r' (update_where_id i st d l) ->
  exists r, In r l /\
    ((id r = i /\ r' = with_status st d r) \/ (id r <> i /\ r' = r)).
Proof.
  unfold update_where_id. rewrite in_map_iff. intros [r [E Hin]].
  exists r. split; [exact Hin|].
  destruct (Z.eqb_spec (id r) i); [left | right]; auto.
Qed.

Lemma same_id_same_row (l : list Invite) (a b : Invite) :
  NoDup (map id l) -> In a l -> In b l -> id a = id b -> a = b.
Proof.
  intros Hnd Ha Hb E.
  pose proof (find_unique id Z.eqb Z.eqb_eq l a Hnd Ha) as Fa.
  pose proof (find_unique id Z.eqb Z.eqb_eq l b Hnd Hb) as Fb.
  rewrite E in Fa. congruence.
Qed.

Lemma invite_json_id (r : Invite) : invite_json r = r.
Proof. destruct r; reflexivity. Qed.

(** ** The store operations, step by step *)

Lemma updateInviteStatus_eq env i st w :
  updateInviteStatus env i st w = (Ok tt, after_update env i st w).
Proof. reflexivity. Qed.

Lemma getInviteBySecret_eq sec w :
  getInviteBySecret sec w =
  (Ok (find (fun r => String.eqb (secret r) sec) (rows (db w))), w).
Proof. reflexivity. Qed.

Lemma getNextInvite_none_row env w n :
  order_by_limit1 Z.leb id (where_status NONE (rows (db w))) = Some n ->
  exists row,
    getNextInvite env w = (Ok (Some row), after_update env (id n) PENDING w) /\
    In row (rows (db (after_update env (id n) PENDING w))) /\
    id row = id n /\ status row = PENDING /\
    (NoDup (map id (rows (db w))) ->
     row = with_status PENDING (datetime_now env (ticks w)) n).
Proof.
  intros Hsel.
  assert (Hn : In n (rows (db w))).
  { apply order_by_limit1_In in Hsel. apply where_status_In in Hsel. tauto. }
  set (d := datetime_now env (ticks w)).
  assert (Hn' : In (with_status PENDING d n) (update_where_id (id n) PENDING d (rows (db w))))
    by (apply update_hit; auto).
  destruct (find_present id Z.eqb Z.eqb_eq _ _ Hn') as [row Hrow].
  exists row. simpl in Hrow.
  unfold getNextInvite, bind, get_rows. rewrite Hsel.
  rewrite updateInviteStatus_eq. unfold getInviteById, bind, get_rows.
  simpl. fold d. rewrite Hrow. unfold ret.
  destruct (find_key id Z.eqb Z.eqb_eq _ _ _ Hrow) as [Hin Hid].
  split; [reflexivity|]. split; [exact Hin|]. split; [exact Hid|]. split.
  - apply update_inv in Hin. destruct Hin as [r [_ [[_ ->]|[Hne ->]]]];
      [reflexivity | congruence].
  - intros Hnd.
    assert (Hnd' : NoDup (map id (update_where_id (id n) PENDING d (rows (db w)))))
      by (rewrite update_ids; exact Hnd).
    apply (same_id_same_row _ _ _ Hnd' Hin Hn'). exact Hid.
Qed.

Lemma getNextInvite_no_none env w :
  order_by_limit1 Z.leb id (where_status NONE (rows (db w))) = None ->
  getNextInvite env w =
  (Ok (order_by_limit1 String.leb updateDate (where_status PENDING (rows (db w)))), w).
Proof.
  intros Hsel. unfold getNextInvite, bind, get_rows. rewrite Hsel.
  destruct (order_by_limit1 String.leb updateDate _); reflexivity.
Qed.

(** ** Dispense precedence *)

(** C3. [getNextInvite] prefers a [none] invite, the one with the
    smallest id, which it moves to [pending] (stamping the current
    time) and returns, leaving every other row as it was; with no
    [none] invite it returns a [pending] invite whose [updateDate] is
    the oldest, without writing anything; with neither it returns
    [null], which [GET /getInvite] answers with 404 "No available
    invites". *)
Theorem getNextInvite_precedence (env : Env) (w : World) :
  table_ok (db w) ->
  let l := rows (db w) in
  let date := datetime_now env (ticks w) in
  ((exists r, In r l /\ status r = NONE) ->
   exists n,
     In n l /\ status n = NONE /\
     (forall m, In m l -> status m = NONE -> id n <= id m) /\
     fst (getNextInvite env w) = Ok (Some (with_status PENDING date n)) /\
     let l' := rows (db (snd (getNextInvite env w))) in
     In (with_status PENDING date n) l' /\
     (forall r, In r l -> r <> n -> In r l') /\
     List.length l' = List.length l)
  /\
  ((forall r, In r l -> status r <> NONE) ->
   (exists r, In r l /\ status r = PENDING) ->
   exists p,
     In p l /\ status p = PENDING /\
     (forall q, In q l -> status q = PENDING ->
                String.leb (updateDate p) (updateDate q) = true) /\
     getNextInvite env w = (Ok (Some p), w))
  /\
  ((forall r, In r l -> status r <> NONE) ->
   (forall r, In r l -> status r <> PENDING) ->
   getNextInvite env w = (Ok None, w) /\
   getInvite_route env w = (Ok NO_INVITES, w)).
Proof.
  intros [Hids _] l date. split; [|split].
  - intros [r [Hr Hs]].
    destruct (order_by_limit1 Z.leb id (where_status NONE l)) as [n|] eqn:Hsel.
    + pose proof (order_by_limit1_In _ _ _ _ Hsel) as Hn.
      apply where_status_In in Hn. destruct Hn as [Hn Hsn].
      destruct (getNextInvite_none_row env w n Hsel)
        as [row [Heq [Hin [_ [_ Hrow]]]]].
      specialize (Hrow Hids). subst row.
      exists n. rewrite Heq. simpl.
      split; [exact Hn|]. split; [exact Hsn|]. split.
      { intros m Hm Hsm. apply Z.leb_le.
        apply (order_by_limit1_least Z.leb id Z_leb_total Z_leb_trans _ _ Hsel).
        apply where_status_In. auto. }
      split; [reflexivity|]. split; [exact Hin|]. split.
      { intros x Hx Hne. apply update_miss; [exact Hx|].
        intros E. apply Hne. apply (same_id_same_row l); auto. }
      apply update_length.
    + apply order_by_limit1_none in Hsel.
      exfalso. apply (proj1 (where_status_nil _ _) Hsel r Hr Hs).
  - intros Hnone [r [Hr Hs]].
    assert (Hsel : order_by_limit1 Z.leb id (where_status NONE l) = None).
    { apply order_by_limit1_none. apply where_status_nil. exact Hnone. }
    rewrite (getNextInvite_no_none env w Hsel). fold l.
    destruct (order_by_limit1 String.leb updateDate (where_status PENDING l))
      as [p|] eqn:Hp.
    + pose proof (order_by_limit1_In _ _ _ _ Hp) as Hin.
      apply where_status_In in Hin. destruct Hin as [Hin Hsp].
      exists p. repeat split; auto.
      intros q Hq Hsq.
      apply (order_by_limit1_least String.leb updateDate
               String.leb_total string_leb_trans _ _ Hp).
      apply where_status_In. auto.
    + apply order_by_limit1_none in Hp.
      exfalso. apply (proj1 (where_status_nil _ _) Hp r Hr Hs).
  - intros Hnone Hpend.
    assert (Hsel : order_by_limit1 Z.leb id (where_status NONE l) = None).
    { apply order_by_limit1_none. apply where_status_nil. exact Hnone. }
    assert (Hp : order_by_limit1 String.leb updateDate (where_status PENDING l) = None).
    { apply order_by_limit1_none. apply where_status_nil. exact Hpend. }
    split; [rewrite (getNextInvite_no_none env w Hsel); fold l; rewrite Hp; reflexivity|].
    unfold getInvite_route, try_catch, bind.
    rewrite (getNextInvite_no_none env w Hsel). fold l. rewrite Hp. reflexivity.
Qed.

(** ** The chain adapter *)

Lemma checkInviteOnChain_outcome env sgn w :
  checkInviteOnChain env sgn w = adapter_outcome env sgn w.
Proof.
  unfold checkInviteOnChain, adapter_outcome, signerAddress_of,
    try_catch, bind, lift, eth_call.
  destruct (encodeFunctionData env _) as [data|e]; [|reflexivity].
  destruct (client_call env (calls w) data) as [e|d]; [reflexivity|].
  destruct (falsy d); [reflexivity|].
  destruct (decodeAbiParameters env (js_string d)); reflexivity.
Qed.

Lemma adapter_outcome_ok env sgn w :
  exists d, fst (adapter_outcome env sgn w) = Ok d.
Proof.
  unfold adapter_outcome.
  destruct (encodeFunctionData env _) as [data|e]; [|eexists; reflexivity].
  destruct (client_call env (calls w) data) as [e|d]; [eexists; reflexivity|].
  destruct (falsy d); [eexists; reflexivity|].
  destruct (decodeAbiParameters env (js_string d)); eexists; reflexivity.
Qed.

Lemma adapter_outcome_world env sgn w :
  snd (adapter_outcome env sgn w) = w \/
  snd (adapter_outcome env sgn w) = one_more_call w.
Proof.
  unfold adapter_outcome.
  destruct (encodeFunctionData env _) as [data|e]; [|left; reflexivity].
  right.
  destruct (client_call env (calls w) data) as [e|d]; [reflexivity|].
  destruct (falsy d); [reflexivity|].
  destruct (decodeAbiParameters env (js_string d)); reflexivity.
Qed.

Lemma adapter_outcome_db env sgn w :
  db (snd (adapter_outcome env sgn w)) = db w /\
  ticks (snd (adapter_outcome env sgn w)) = ticks w.
Proof.
  destruct (adapter_outcome_world env sgn w) as [-> | ->]; split; reflexivity.
Qed.

(** C6. When the arguments encode and the single [client.call] throws
    or comes back without data, [checkInviteOnChain] returns the zero
    address with [claimed = false] instead of throwing, and exactly one
    call has been sent. *)
Theorem checkInviteOnChain_fail_open (env : Env) (sgn data : string) (w : World) :
  encodeFunctionData env (signerAddress_of sgn) = Ok data ->
  call_fails (client_call env (calls w) data) ->
  checkInviteOnChain env sgn w =
  (Ok {| account := "0x0000000000000000000000000000000000000000"; claimed := false |},
   {| db := db w; ticks := ticks w; calls := S (calls w) |}).
Proof.
  intros Henc Hfail. rewrite checkInviteOnChain_outcome.
  unfold adapter_outcome. rewrite Henc.
  destruct (client_call env (calls w) data) as [e|d]; simpl in Hfail.
  - reflexivity.
  - rewrite Hfail. reflexivity.
Qed.

Lemma checkInviteOnChain_fail_open_witness :
  checkInviteOnChain (sample_env node_down true)
    "00000000000000000000000000000000000000A1" boot =
  (Ok {| account := "0x0000000000000000000000000000000000000000"; claimed := false |},
   {| db := db boot; ticks := ticks boot; calls := S (calls boot) |}).
Proof.
  apply (checkInviteOnChain_fail_open (sample_env node_down true)
           "00000000000000000000000000000000000000A1"
           "0x00000000000000000000000000000000000000A1" boot).
  - reflexivity.
  - exact I.
Defined.

(** ** Statistics *)

Lemma rows_by_status (l : list Invite) :
  count_rows l =
  count_rows (where_status USED l) + count_rows (where_status PENDING l)
  + count_rows (where_status NONE l).
Proof.
  unfold count_rows, where_status.
  assert (H : (List.length l =
               List.length (filter (fun r => status_eqb (status r) USED) l)
               + List.length (filter (fun r => status_eqb (status r) PENDING) l)
               + List.length (filter (fun r => status_eqb (status r) NONE) l))%nat).
  { induction l as [|r t IH]; [reflexivity|].
    cbn [filter List.length]. destruct (status r); cbn [status_eqb List.length]; lia. }
  lia.
Qed.

(** C8. The record computed by [getInviteStats] has
    [total = used + pending + available], where [total] is the number
    of rows, [used] and [pending] are the numbers of rows whose status
    is [used] and [pending], and [available] is the number of rows
    whose status is [none]; the table is not written. *)
Theorem getInviteStats_sum (w : World) :
  exists st,
    getInviteStats w = (Ok st, w) /\
    total st = used st + pending st + available st /\
    total st = Z.of_nat (List.length (rows (db w))) /\
    used st =
      Z.of_nat (List.length
                  (filter (fun r => match status r with USED => true | _ => false end)
                          (rows (db w)))) /\
    pending st =
      Z.of_nat (List.length
                  (filter (fun r => match status r with PENDING => true | _ => false end)
                          (rows (db w)))) /\
    available st =
      Z.of_nat (List.length
                  (filter (fun r => match status r with NONE => true | _ => false end)
                          (rows (db w)))) /\
    0 <= used st /\ 0 <= pending st /\ 0 <= available st.
Proof.
  eexists. split; [reflexivity|]. cbn [total used pending available].
  pose proof (rows_by_status (rows (db w))) as H.
  assert (Hu : count_rows (where_status USED (rows (db w))) =
               Z.of_nat (List.length
                 (filter (fun r => match status r with USED => true | _ => false end)
                         (rows (db w))))).
  { reflexivity. }
  assert (Hp : count_rows (where_status PENDING (rows (db w))) =
               Z.of_nat (List.length
                 (filter (fun r => match status r with PENDING => true | _ => false end)
                         (rows (db w))))).
  { reflexivity. }
  assert (Hn : count_rows (where_status NONE (rows (db w))) =
               Z.of_nat (List.length
                 (filter (fun r => match status r with NONE => true | _ => false end)
                         (rows (db w))))).
  { reflexivity. }
  assert (Ht : count_rows (rows (db w)) = Z.of_nat (List.length (rows (db w))))
    by reflexivity.
  rewrite <- Hu, <- Hp, <- Hn, <- Ht.
  assert (0 <= count_rows (where_status USED (rows (db w)))) by (rewrite Hu; lia).
  assert (0 <= count_rows (where_status PENDING (rows (db w)))) by (rewrite Hp; lia).
  assert (0 <= count_rows (where_status NONE (rows (db w)))) by (rewrite Hn; lia).
  repeat split; lia.
Qed.

Lemma getInviteStats_sum_witness :
  let w := world_of [invite_A USED; invite_B PENDING;
                     mkInvite 3 "f00d" "0xc3" NONE "2024-01-02 09:00:00";
                     mkInvite 4 "beef" "0xd4" NONE "2024-01-02 09:30:00"] in
  getInviteStats w = (Ok (mkStats 4 1 1 2), w).
Proof.
  intros w.
  destruct (getInviteStats_sum w) as [st [E [_ [Ht [Hu [Hp [Ha _]]]]]]].
  rewrite E. destruct st as [t u p a].
  cbn [total used pending available] in Ht, Hu, Hp, Ha.
  subst t u p a. reflexivity.
Defined.

(** ** [POST /checkInvite] *)

Lemma find_map_stable {A : Type} (p : A -> bool) (f : A -> A) (l : list A) :
  (forall x, p (f x) = p x) ->
  find p (map f l) = option_map f (find p l).
Proof.
  intros Hp. induction l as [|x t IH]; simpl; [reflexivity|].
  rewrite Hp. destruct (p x); [reflexivity | exact IH].
Qed.

Lemma find_secret_update sec i st d l :
  find (fun r => String.eqb (secret r) sec) (update_where_id i st d l) =
  option_map (fun r => if id r =? i then with_status st d r else r)
             (find (fun r => String.eqb (secret r) sec) l).
Proof.
  unfold update_where_id. apply find_map_stable.
  intros r. destruct (id r =? i); reflexivity.
Qed.

Lemma markInviteAsUsed_found env sec inv w :
  find (fun r => String.eqb (secret r) sec) (rows (db w)) = Some inv ->
  markInviteAsUsed env sec w = (Ok true, after_update env (id inv) USED w).
Proof.
  intros Hf. unfold markInviteAsUsed, bind.
  rewrite getInviteBySecret_eq, Hf, updateInviteStatus_eq. reflexivity.
Qed.

Lemma markInviteAsUsed_absent env sec w :
  find (fun r => String.eqb (secret r) sec) (rows (db w)) = None ->
  markInviteAsUsed env sec w = (Ok false, w).
Proof.
  intros Hf. unfold markInviteAsUsed, bind.
  rewrite getInviteBySecret_eq, Hf. reflexivity.
Qed.

Lemma checkInvite_route_found env sec addr inv w :
  falsy sec = false -> falsy addr = false ->
  find (fun r => String.eqb (secret r) (js_string sec)) (rows (db w)) = Some inv ->
  checkInvite_route env sec addr w = checkInvite_answer env (js_string addr) inv w.
Proof.
  intros Hsec Haddr Hf.
  unfold checkInvite_route, checkInvite_answer.
  rewrite Hsec, Haddr. unfold try_catch at 1. unfold bind at 1.
  rewrite getInviteBySecret_eq, Hf, invite_json_id.
  destruct (status_eqb (status inv) USED); [reflexivity|].
  unfold try_catch, bind. rewrite checkInviteOnChain_outcome.
  destruct (adapter_outcome_db env (js_string addr) w) as [Hdb Hticks].
  destruct (adapter_outcome env (js_string addr) w) as [[d|e] w1];
    cbn [fst snd] in Hdb, Hticks |- *; [|reflexivity].
  destruct (claimed d); [|reflexivity].
  rewrite <- Hdb in Hf.
  rewrite (markInviteAsUsed_found env _ inv w1 Hf).
  rewrite getInviteBySecret_eq.
  cbn [after_update db rows].
  rewrite find_secret_update, Hf. cbn [option_map non_null]. unfold ret.
  rewrite Z.eqb_refl, Hticks. reflexivity.
Qed.

Lemma checkInvite_route_absent env sec addr w :
  falsy sec = false -> falsy addr = false ->
  find (fun r => String.eqb (secret r) (js_string sec)) (rows (db w)) = None ->
  checkInvite_route env sec addr w =
  (Ok (mkResponse 404 (ErrorJson "Invite not found")), w).
Proof.
  intros Hsec Haddr Hf. unfold checkInvite_route.
  rewrite Hsec, Haddr. unfold try_catch, bind.
  rewrite getInviteBySecret_eq, Hf. reflexivity.
Qed.

(** C7. For a stored invite whose status is [used], [POST /checkInvite]
    with its secret (and some address) answers 200 with [isUsed = true]
    and the invite as stored; the world is the same afterwards: no row
    is written and no call is sent to the node. *)
Theorem checkInvite_used_short_circuit
    (env : Env) (w : World) (sec addr : option string) (inv : Invite) :
  table_ok (db w) ->
  In inv (rows (db w)) ->
  status inv = USED ->
  falsy sec = false -> falsy addr = false ->
  secret inv = js_string sec ->
  checkInvite_route env sec addr w = (Ok (mkResponse 200 (CheckJson true inv)), w).
Proof.
  intros [_ Hsecrets] Hin Hused Hsec Haddr Hs.
  pose proof (find_unique secret String.eqb string_eqb_ok _ _ Hsecrets Hin) as Hf.
  rewrite Hs in Hf.
  rewrite (checkInvite_route_found env sec addr inv w Hsec Haddr Hf).
  unfold checkInvite_answer. rewrite Hused. reflexivity.
Qed.

Lemma checkInvite_used_short_circuit_witness :
  checkInvite_route (sample_env node_down true) (Some "deadbeef") (Some "0xabc")
    (world_of [invite_A USED; invite_B PENDING]) =
  (Ok (mkResponse 200 (CheckJson true (invite_A USED))),
   world_of [invite_A USED; invite_B PENDING]).
Proof.
  apply checkInvite_used_short_circuit; try reflexivity.
  - split; simpl; repeat constructor; simpl; intuition discriminate.
  - left; reflexivity.
Defined.

(** C1. With the node down, [POST /checkInvite] for a [pending] invite
    answers 200 with [isUsed = false]: the adapter has already turned
    the failure into "not claimed", so the handler's own [catch], which
    would answer 500, never runs. The row is left as it was. *)
Theorem checkInvite_node_down_answers_not_used :
  checkInvite_route (sample_env node_down true)
    (Some "deadbeef") (Some "0x00000000000000000000000000000000000000a1")
    (world_of [invite_A PENDING]) =
  (Ok (mkResponse 200 (CheckJson false (invite_A PENDING))),
   one_more_call (world_of [invite_A PENDING])).
Proof. reflexivity. Qed.

(** The same in general: whenever encoding, the call or decoding fails
    for an invite that is not [used], the answer is 200 with
    [isUsed = false] and the table is untouched. *)
Lemma checkInvite_adapter_failure
    (env : Env) (w : World) (sec addr : option string) (inv : Invite) :
  table_ok (db w) ->
  In inv (rows (db w)) ->
  status inv <> USED ->
  falsy sec = false -> falsy addr = false ->
  secret inv = js_string sec ->
  adapter_failure env (js_string addr) w ->
  fst (checkInvite_route env sec addr w) = Ok (mkResponse 200 (CheckJson false inv)) /\
  db (snd (checkInvite_route env sec addr w)) = db w.
Proof.
  intros [_ Hsecrets] Hin Hst Hsec Haddr Hs Hfail.
  pose proof (find_unique secret String.eqb string_eqb_ok _ _ Hsecrets Hin) as Hf.
  rewrite Hs in Hf.
  rewrite (checkInvite_route_found env sec addr inv w Hsec Haddr Hf).
  unfold checkInvite_answer.
  destruct (status_eqb (status inv) USED) eqn:E;
    [apply status_eqb_eq in E; contradiction|].
  unfold adapter_failure in Hfail. unfold adapter_outcome.
  destruct (encodeFunctionData env _) as [data|e]; [|split; reflexivity].
  destruct (client_call env (calls w) data) as [e|d]; [split; reflexivity|].
  destruct Hfail as [Hd | [e He]].
  - rewrite Hd. split; reflexivity.
  - destruct (falsy d); [split; reflexivity|]. rewrite He. split; reflexivity.
Qed.

(** C10. [checkInviteOnChain] always returns: whatever the codec and
    the node do, the result is a value, and it is the zero address with
    [claimed = false] whenever encoding, the call or decoding fails.
    Hence [POST /checkInvite] always answers, and never with 500
    "Failed to verify invite status on-chain". *)
Theorem checkInviteOnChain_total (env : Env) :
  (forall sgn w, exists d, fst (checkInviteOnChain env sgn w) = Ok d) /\
  (forall sgn w, adapter_failure env sgn w ->
                 fst (checkInviteOnChain env sgn w) = Ok NOT_CLAIMED) /\
  (forall sec addr w,
      exists resp, fst (checkInvite_route env sec addr w) = Ok resp /\
                   resp <> CHAIN_FAILED).
Proof.
  split; [|split].
  - intros sgn w. rewrite checkInviteOnChain_outcome. apply adapter_outcome_ok.
  - intros sgn w Hfail. rewrite checkInviteOnChain_outcome.
    unfold adapter_failure in Hfail. unfold adapter_outcome.
    destruct (encodeFunctionData env _) as [data|e]; [|reflexivity].
    destruct (client_call env (calls w) data) as [e|d]; [reflexivity|].
    destruct Hfail as [Hd | [e He]].
    + rewrite Hd. reflexivity.
    + destruct (falsy d); [reflexivity|]. rewrite He. reflexivity.
  - intros sec addr w.
    destruct (falsy sec) eqn:Hsec.
    { unfold checkInvite_route. rewrite Hsec.
      eexists. split; [reflexivity | discriminate]. }
    destruct (falsy addr) eqn:Haddr.
    { unfold checkInvite_route. rewrite Hsec, Haddr.
      eexists. split; [reflexivity | discriminate]. }
    destruct (find (fun r => String.eqb (secret r) (js_string sec)) (rows (db w)))
      as [inv|] eqn:Hf.
    + rewrite (checkInvite_route_found env sec addr inv w Hsec Haddr Hf).
      unfold checkInvite_answer.
      destruct (status_eqb (status inv) USED);
        [eexists; split; [reflexivity | discriminate]|].
      destruct (adapter_outcome_ok env (js_string addr) w) as [d Hd].
      rewrite Hd.
      destruct (claimed d); eexists; (split; [reflexivity | discriminate]).
    + rewrite (checkInvite_route_absent env sec addr w Hsec Haddr Hf).
      eexists. split; [reflexivity | discriminate].
Qed.

Lemma checkInviteOnChain_total_witness :
  adapter_failure (sample_env node_down true) "0xabc" boot /\
  fst (checkInviteOnChain (sample_env node_down true) "0xabc" boot) = Ok NOT_CLAIMED.
Proof.
  split.
  - exact I.
  - apply (proj1 (proj2 (checkInviteOnChain_total (sample_env node_down true)))).
    exact I.
Defined.

(** ** What a handler does to the table *)

Section Keeps.
Variable R : Store -> Store -> Prop.
Hypothesis R_refl : forall s, R s s.
Hypothesis R_trans : forall a b c, R a b -> R b c -> R a c.

Lemma keeps_ret {A} (a : A) : keeps R (ret a).
Proof. intros w. apply R_refl. Qed.

Lemma keeps_throw {A} (e : Error) : keeps R (@throw A e).
Proof. intros w. apply R_refl. Qed.

Lemma keeps_lift {A} (r : Result A) : keeps R (lift r).
Proof. intros w. apply R_refl. Qed.

Lemma keeps_get_rows : keeps R get_rows.
Proof. intros w. apply R_refl. Qed.

Lemma keeps_get_db : keeps R get_db.
Proof. intros w. apply R_refl. Qed.

Lemma keeps_now env : keeps R (now env).
Proof. intros w. apply R_refl. Qed.

Lemma keeps_bind {A B} (m : M A) (k : A -> M B) :
  keeps R m -> (forall a, keeps R (k a)) -> keeps R (bind m k).
Proof.
  intros Hm Hk w. unfold bind. specialize (Hm w).
  destruct (m w) as [[a|e] w1]; simpl in *.
  - eapply R_trans; [exact Hm | apply Hk].
  - exact Hm.
Qed.

Lemma keeps_try_catch {A} (m : M A) (h : Error -> M A) :
  keeps R m -> (forall e, keeps R (h e)) -> keeps R (try_catch m h).
Proof.
  intros Hm Hh w. unfold try_catch. specialize (Hm w).
  destruct (m w) as [[a|e] w1]; simpl in *.
  - exact Hm.
  - eapply R_trans; [exact Hm | apply Hh].
Qed.

Lemma keeps_same_db {A} (m : M A) :
  (forall w, db (snd (m w)) = db w) -> keeps R m.
Proof. intros H w. rewrite H. apply R_refl. Qed.

Lemma keeps_checkInviteOnChain env sgn : keeps R (checkInviteOnChain env sgn).
Proof.
  apply keeps_same_db. intros w. rewrite checkInviteOnChain_outcome.
  apply adapter_outcome_db.
Qed.

Lemma keeps_getInviteById i : keeps R (getInviteById i).
Proof.
  apply keeps_same_db. intros w. unfold getInviteById, bind, get_rows.
  destruct (find _ _); reflexivity.
Qed.

Lemma keeps_getInviteBySecret sec : keeps R (getInviteBySecret sec).
Proof. apply keeps_same_db. reflexivity. Qed.

Lemma keeps_getInviteStats : keeps R getInviteStats.
Proof. apply keeps_same_db. reflexivity. Qed.
End Keeps.

Lemma later_of_refl (r : Invite) : later_of r r.
Proof. unfold later_of. repeat split; lia. Qed.

Lemma later_of_trans (a b c : Invite) : later_of a b -> later_of b c -> later_of a c.
Proof.
  unfold later_of. intros [? [? [? ?]]] [? [? [? ?]]].
  repeat split; try congruence; lia.
Qed.

Lemma advances_refl (s : Store) : advances s s.
Proof.
  intros Hok. split; [exact Hok|].
  intros r Hr. exists r. split; [exact Hr | apply later_of_refl].
Qed.

Lemma advances_trans (a b c : Store) : advances a b -> advances b c -> advances a c.
Proof.
  intros Hab Hbc Ha. destruct (Hab Ha) as [Hb Hrows].
  destruct (Hbc Hb) as [Hc Hrows']. split; [exact Hc|].
  intros r Hr. destruct (Hrows r Hr) as [r1 [Hr1 L1]].
  destruct (Hrows' r1 Hr1) as [r2 [Hr2 L2]].
  exists r2. split; [exact Hr2 | eapply later_of_trans; eassumption].
Qed.

Lemma max_rowid_bound (l : list Invite) (r : Invite) :
  In r l -> id r <= max_rowid l.
Proof.
  induction l as [|x t IH]; simpl; intros Hin; [destruct Hin|].
  destruct Hin as [->|Hin]; [lia|]. specialize (IH Hin). lia.
Qed.

Lemma existsb_secret_false (l : list Invite) (sec : string) :
  existsb (fun r => String.eqb (secret r) sec) l = false ->
  ~ In sec (map secret l).
Proof.
  intros H Hin. apply in_map_iff in Hin. destruct Hin as [r [E Hr]].
  assert (Ht : existsb (fun r => String.eqb (secret r) sec) l = true).
  { apply existsb_exists. exists r. split; [exact Hr|]. apply String.eqb_eq. exact E. }
  congruence.
Qed.

Lemma NoDup_snoc {A : Type} (l : list A) (x : A) :
  NoDup l -> ~ In x l -> NoDup (l ++ [x]).
Proof.
  intros Hl Hx. induction Hl as [|y t Hy Ht IH]; simpl.
  - constructor; [intros []|constructor].
  - constructor.
    + rewrite in_app_iff. intros [H|[H|[]]]; [contradiction|].
      apply Hx. left. symmetry. exact H.
    + apply IH. intros H. apply Hx. right. exact H.
Qed.

(** Inserting a row with a fresh id and a fresh secret. *)
Lemma advances_insert (s : Store) (sec sgn date : string) :
  existsb (fun r => String.eqb (secret r) sec) (rows s) = false ->
  let rowid := Z.max (sqlite_sequence s) (max_rowid (rows s)) + 1 in
  advances s {| rows := rows s ++ [mkInvite rowid sec sgn NONE date];
                sqlite_sequence := rowid |}.
Proof.
  intros Hfresh rowid [Hids Hsecs]. split.
  - unfold table_ok. simpl. rewrite !map_app. simpl. split.
    + apply NoDup_snoc; [exact Hids|].
      intros Hin. apply in_map_iff in Hin. destruct Hin as [r [E Hr]].
      pose proof (max_rowid_bound _ _ Hr). unfold rowid in E. lia.
    + apply NoDup_snoc; [exact Hsecs|]. apply existsb_secret_false. exact Hfresh.
  - intros r Hr. exists r. simpl. rewrite in_app_iff.
    split; [left; exact Hr | apply later_of_refl].
Qed.

(** Stamping [used] on the rows with a given id. *)
Lemma advances_mark_used (s : Store) (i : Z) (date : string) :
  advances s {| rows := update_where_id i USED date (rows s);
                sqlite_sequence := sqlite_sequence s |}.
Proof.
  intros [Hids Hsecs]. split.
  - unfold table_ok. simpl. rewrite update_ids, update_secrets. auto.
  - intros r Hr. simpl.
    destruct (Z.eq_dec (id r) i) as [E|E].
    + exists (with_status USED date r). split; [apply update_hit; auto|].
      unfold later_of. simpl. repeat split. destruct (status r); simpl; lia.
    + exists r. split; [apply update_miss; auto | apply later_of_refl].
Qed.

(** Stamping [pending] on a row that is [none]. *)
Lemma advances_mark_pending (s : Store) (n : Invite) (date : string) :
  In n (rows s) -> status n = NONE ->
  advances s {| rows := update_where_id (id n) PENDING date (rows s);
                sqlite_sequence := sqlite_sequence s |}.
Proof.
  intros Hn Hst [Hids Hsecs]. split.
  - unfold table_ok. simpl. rewrite update_ids, update_secrets. auto.
  - intros r Hr. simpl.
    destruct (Z.eq_dec (id r) (id n)) as [E|E].
    + assert (r = n) by (apply (same_id_same_row (rows s)); auto). subst r.
      exists (with_status PENDING date n). split; [apply update_hit; auto|].
      unfold later_of. simpl. repeat split. rewrite Hst. simpl. lia.
    + exists r. split; [apply update_miss; auto | apply later_of_refl].
Qed.

Lemma keeps_addInvite env sec sgn : keeps advances (addInvite env sec sgn).
Proof.
  intros w. unfold addInvite, bind, now, get_db. simpl.
  destruct (existsb _ (rows (db w))) eqn:E; simpl.
  - apply advances_refl.
  - unfold set_db, getInviteById, bind, get_rows. simpl.
    match goal with |- context [find ?p ?l] => destruct (find p l) end; simpl;
      apply (advances_insert (db w) sec sgn _ E).
Qed.

Lemma keeps_markInviteAsUsed env sec : keeps advances (markInviteAsUsed env sec).
Proof.
  intros w.
  destruct (find (fun r => String.eqb (secret r) sec) (rows (db w))) as [inv|] eqn:Hf.
  - rewrite (markInviteAsUsed_found env sec inv w Hf). apply advances_mark_used.
  - rewrite (markInviteAsUsed_absent env sec w Hf). apply advances_refl.
Qed.

Lemma keeps_getNextInvite env : keeps advances (getNextInvite env).
Proof.
  intros w.
  destruct (order_by_limit1 Z.leb id (where_status NONE (rows (db w)))) as [n|] eqn:Hsel.
  - destruct (getNextInvite_none_row env w n Hsel) as [row [-> _]].
    pose proof (order_by_limit1_In _ _ _ _ Hsel) as Hn.
    apply where_status_In in Hn. destruct Hn as [Hn Hst].
    apply advances_mark_pending; assumption.
  - rewrite (getNextInvite_no_none env w Hsel). apply advances_refl.
Qed.

(** ** Every handler only moves invites forward *)

Ltac keeps_walk R Rrefl Rtrans prim :=
  repeat first
    [ prim
    | apply (keeps_checkInviteOnChain R Rrefl)
    | apply (keeps_getInviteBySecret R Rrefl)
    | apply (keeps_getInviteStats R Rrefl)
    | apply (keeps_ret R Rrefl)
    | apply (keeps_throw R Rrefl)
    | apply (keeps_lift R Rrefl)
    | apply (keeps_bind R Rtrans); [|intro]
    | apply (keeps_try_catch R Rtrans); [|intro]
    | match goal with
      | |- keeps _ (if ?b then _ else _) => destruct b
      | |- keeps _ (match ?x with _ => _ end) => destruct x
      end ].

Ltac forward :=
  keeps_walk advances advances_refl advances_trans
    ltac:(first [ apply keeps_addInvite
                | apply keeps_markInviteAsUsed
                | apply keeps_getNextInvite ]).

Lemma keeps_addInvite_route env sec addr : keeps advances (addInvite_route env sec addr).
Proof. unfold addInvite_route, addInvite_catch. forward. Qed.

Lemma keeps_addInvite_route_auth env k sec sgn :
  keeps advances (addInvite_route_auth env k sec sgn).
Proof. unfold addInvite_route_auth, addInvite_catch. forward. Qed.

Lemma keeps_getInvite_route env : keeps advances (getInvite_route env).
Proof. unfold getInvite_route. forward. Qed.

Lemma keeps_checkInvite_route env sec addr :
  keeps advances (checkInvite_route env sec addr).
Proof. unfold checkInvite_route, non_null. forward. Qed.

Lemma keeps_health_route : keeps advances health_route.
Proof. unfold health_route. forward. Qed.

Lemma keeps_handle env q : keeps advances (handle env q).
Proof.
  destruct q; simpl.
  - apply keeps_addInvite_route.
  - apply keeps_addInvite_route_auth.
  - apply keeps_getInvite_route.
  - apply keeps_checkInvite_route.
  - apply keeps_health_route.
Qed.

Lemma serve_cons env q qs w :
  serve env (q :: qs) w =
  (match fst (handle env q w) with
   | Ok resp => resp :: fst (serve env qs (snd (handle env q w)))
   | Throw _ => fst (serve env qs (snd (handle env q w)))
   end,
   snd (serve env qs (snd (handle env q w)))).
Proof.
  simpl. destruct (handle env q w) as [r w1]. simpl.
  destruct (serve env qs w1) as [rs w2]. reflexivity.
Qed.

Lemma serve_advances env qs : forall w, advances (db w) (db (snd (serve env qs w))).
Proof.
  induction qs as [|q qs IH]; intros w.
  - apply advances_refl.
  - rewrite serve_cons. simpl.
    eapply advances_trans; [apply keeps_handle | apply IH].
Qed.

Lemma table_ok_boot : table_ok (db boot).
Proof. split; constructor. Qed.

Lemma table_ok_reachable env qs : table_ok (db (snd (serve env qs boot))).
Proof. apply (serve_advances env qs boot). apply table_ok_boot. Qed.

(** C4. Over any sequence of requests (adding, dispensing, checking,
    health), starting from a table that meets its constraints, every
    invite is still stored afterwards under the same id, secret and
    signer, and its status is at the same place or further along
    [none -> pending -> used]; an invite that was [used] is still
    [used]. *)
Theorem status_only_moves_forward
    (env : Env) (qs : list Request) (w : World) (r : Invite) :
  table_ok (db w) ->
  In r (rows (db w)) ->
  exists r',
    In r' (rows (db (snd (serve env qs w)))) /\
    id r' = id r /\ secret r' = secret r /\ signer r' = signer r /\
    rank (status r) <= rank (status r') /\
    (status r = USED -> status r' = USED).
Proof.
  intros Hok Hr.
  destruct (serve_advances env qs w Hok) as [_ Hrows].
  destruct (Hrows r Hr) as [r' [Hr' [Hid [Hsec [Hsgn Hrank]]]]].
  exists r'. repeat split; auto.
  intros Hu. rewrite Hu in Hrank. destruct (status r'); simpl in Hrank; try lia.
  reflexivity.
Qed.

(** ** Adding a secret twice *)

Lemma untouched_refl sec (s : Store) : untouched_if_present sec s s.
Proof. intros _. reflexivity. Qed.

Lemma untouched_trans sec (a b c : Store) :
  untouched_if_present sec a b -> untouched_if_present sec b c ->
  untouched_if_present sec a c.
Proof.
  intros Hab Hbc Ha. specialize (Hab Ha). subst b. apply Hbc. exact Ha.
Qed.

Lemma addInvite_duplicate_eq env sec sgn w :
  existsb (fun r => String.eqb (secret r) sec) (rows (db w)) = true ->
  addInvite env sec sgn w =
  (Throw UNIQUE_FAILED, {| db := db w; ticks := S (ticks w); calls := calls w |}).
Proof.
  intros E. unfold addInvite, bind, now, get_db. simpl. rewrite E. reflexivity.
Qed.

Lemma keeps_untouched_addInvite env sec sgn :
  keeps (untouched_if_present sec) (addInvite env sec sgn).
Proof.
  intros w E. rewrite (addInvite_duplicate_eq env sec sgn w E). reflexivity.
Qed.

Lemma keeps_untouched_addInvite_route env sec addr :
  keeps (untouched_if_present (js_string sec)) (addInvite_route env sec addr).
Proof.
  unfold addInvite_route, addInvite_catch.
  keeps_walk (untouched_if_present (js_string sec))
             (untouched_refl (js_string sec)) (untouched_trans (js_string sec))
             ltac:(apply keeps_untouched_addInvite).
Qed.

Lemma keeps_untouched_addInvite_route_auth env k sec sgn :
  keeps (untouched_if_present (js_string sec)) (addInvite_route_auth env k sec sgn).
Proof.
  unfold addInvite_route_auth, addInvite_catch.
  keeps_walk (untouched_if_present (js_string sec))
             (untouched_refl (js_string sec)) (untouched_trans (js_string sec))
             ltac:(apply keeps_untouched_addInvite).
Qed.

Lemma secret_present (l : list Invite) (r : Invite) :
  In r l -> existsb (fun x => String.eqb (secret x) (secret r)) l = true.
Proof.
  intros Hr. apply existsb_exists. exists r. split; [exact Hr|].
  apply String.eqb_refl.
Qed.

(** C5. When an invite with secret [s] is stored, [addInvite] with [s]
    throws "UNIQUE constraint failed" and the table is exactly as
    before. Both [POST /addInvite] handlers leave the table as before
    whatever else the request holds, and answer 409 "Secret already
    exists" as soon as the request gets past their checks (the API key
    and the field checks; for the open handler also the secret/address
    match and an unclaimed, bound account on chain). *)
Theorem addInvite_duplicate_secret (env : Env) (w : World) (r : Invite) :
  In r (rows (db w)) ->
  (forall sgn,
      fst (addInvite env (secret r) sgn w) = Throw UNIQUE_FAILED /\
      db (snd (addInvite env (secret r) sgn w)) = db w)
  /\
  (forall k sec sgn,
      js_string sec = secret r ->
      db (snd (addInvite_route_auth env k sec sgn w)) = db w /\
      (authorized env k = true -> falsy sec = false -> falsy sgn = false ->
       hex_string_re (js_string sec) = true ->
       fst (addInvite_route_auth env k sec sgn w) = Ok CONFLICT))
  /\
  (forall sec addr,
      js_string sec = secret r ->
      db (snd (addInvite_route env sec addr w)) = db w /\
      (forall d,
          falsy sec = false -> falsy addr = false ->
          hex_string_re (js_string sec) = true ->
          address_re (js_string addr) = true ->
          verifySecretMatchesAddress env (js_string sec) (js_string addr) = Ok true ->
          oracle_reports env w (js_string addr) d ->
          account d <> ZERO_ADDRESS -> claimed d = false ->
          fst (addInvite_route env sec addr w) = Ok CONFLICT)).
Proof.
  intros Hr. pose proof (secret_present _ _ Hr) as E.
  split; [|split].
  - intros sgn. rewrite (addInvite_duplicate_eq env _ sgn w E). split; reflexivity.
  - intros k sec sgn Hs. split.
    + apply keeps_untouched_addInvite_route_auth. rewrite Hs. exact E.
    + intros Hk Hsec Hsgn Hhex. unfold addInvite_route_auth.
      rewrite Hk, Hsec, Hsgn, Hhex. simpl. unfold try_catch, bind.
      rewrite Hs, (addInvite_duplicate_eq env _ _ w E). reflexivity.
  - intros sec addr Hs. split.
    + apply keeps_untouched_addInvite_route. rewrite Hs. exact E.
    + intros d Hsec Haddr Hhex Hare Hver Hor Hacc Hcl.
      unfold addInvite_route. rewrite Hsec, Haddr, Hhex, Hare. simpl.
      unfold try_catch, bind, lift. rewrite Hver. simpl.
      unfold oracle_reports in Hor.
      pose proof (keeps_checkInviteOnChain eq (@eq_refl Store) env (js_string addr) w) as Hdb.
      destruct (checkInviteOnChain env (js_string addr) w) as [res w1].
      simpl in Hor, Hdb. subst res.
      apply String.eqb_neq in Hacc. rewrite Hacc, Hcl.
      rewrite Hs, (addInvite_duplicate_eq env _ _ w1); [reflexivity|].
      rewrite <- Hdb. exact E.
Qed.

(** ** Which responses hand out an invite *)

Lemma answers_ret P (r : Response) : P r -> answers P (ret r).
Proof. intros H w resp E. simpl in E. injection E as <-. exact H. Qed.

Lemma answers_bind P {A} (m : M A) (k : A -> M Response) :
  (forall a, answers P (k a)) -> answers P (bind m k).
Proof.
  intros Hk w resp. unfold bind.
  destruct (m w) as [[a|e] w1]; [apply Hk | discriminate].
Qed.

Lemma answers_try_catch P (m : M Response) (h : Error -> M Response) :
  answers P m -> (forall e, answers P (h e)) -> answers P (try_catch m h).
Proof.
  intros Hm Hh w resp. unfold try_catch. specialize (Hm w).
  destruct (m w) as [[a|e] w1]; simpl in *.
  - exact (Hm resp).
  - apply Hh.
Qed.

Ltac not_dispensing :=
  let i := fresh "i" in
  let H := fresh "H" in
  intros i H; destruct H as [? [? [? ?]]]; simpl in *; discriminate.

Ltac answers_walk :=
  repeat first
    [ apply answers_ret; not_dispensing
    | apply answers_bind; intro
    | apply answers_try_catch; [|intro]
    | match goal with
      | |- answers _ (if ?b then _ else _) => destruct b
      | |- answers _ (match ?x with _ => _ end) => destruct x
      end ].

Lemma addInvite_route_never_dispenses env sec addr :
  answers never_dispenses (addInvite_route env sec addr).
Proof. unfold addInvite_route, addInvite_catch. answers_walk. Qed.

Lemma addInvite_route_auth_never_dispenses env k sec sgn :
  answers never_dispenses (addInvite_route_auth env k sec sgn).
Proof. unfold addInvite_route_auth, addInvite_catch. answers_walk. Qed.

Lemma checkInvite_route_never_dispenses env sec addr :
  answers never_dispenses (checkInvite_route env sec addr).
Proof. unfold checkInvite_route. answers_walk. Qed.

Lemma health_route_never_dispenses : answers never_dispenses health_route.
Proof. unfold health_route. answers_walk. Qed.

Lemma getNextInvite_ok env w : exists o, fst (getNextInvite env w) = Ok o.
Proof.
  destruct (order_by_limit1 Z.leb id (where_status NONE (rows (db w)))) as [n|] eqn:Hsel.
  - destruct (getNextInvite_none_row env w n Hsel) as [row [-> _]]. eexists; reflexivity.
  - rewrite (getNextInvite_no_none env w Hsel). eexists; reflexivity.
Qed.

Lemma getNextInvite_some env w r :
  fst (getNextInvite env w) = Ok (Some r) ->
  In r (rows (db (snd (getNextInvite env w)))) /\ status r = PENDING.
Proof.
  destruct (order_by_limit1 Z.leb id (where_status NONE (rows (db w)))) as [n|] eqn:Hsel.
  - destruct (getNextInvite_none_row env w n Hsel) as [row [-> [Hin [_ [Hst _]]]]].
    simpl. intros E. injection E as <-. auto.
  - rewrite (getNextInvite_no_none env w Hsel). simpl. intros E. injection E as E.
    apply order_by_limit1_In in E. apply where_status_In in E. exact E.
Qed.

Lemma markInviteAsUsed_ok env sec w : exists b, fst (markInviteAsUsed env sec w) = Ok b.
Proof.
  destruct (find (fun r => String.eqb (secret r) sec) (rows (db w))) as [inv|] eqn:Hf.
  - rewrite (markInviteAsUsed_found env sec inv w Hf). eexists; reflexivity.
  - rewrite (markInviteAsUsed_absent env sec w Hf). eexists; reflexivity.
Qed.

(** An invite handed out by [GET /getInvite] is stored, and not as
    [none]. *)
Lemma getInvite_route_dispenses env w resp w' i :
  getInvite_route env w = (Ok resp, w') ->
  dispenses resp i ->
  exists r, In r (rows (db w')) /\ id r = i /\ status r <> NONE.
Proof.
  unfold getInvite_route. unfold try_catch at 1. unfold bind at 1.
  pose proof (getNextInvite_some env w) as Hsome.
  destruct (getNextInvite env w) as [[[invite|]|e] w0]; cbn [fst snd] in *.
  - destruct (Hsome invite eq_refl) as [Hin Hst]. clear Hsome.
    assert (Hkeep : forall w1, db w1 = db w0 ->
              (Ok (mkResponse 200 (InviteJson (invite_json invite))), w1) = (Ok resp, w') ->
              dispenses resp i ->
              exists r, In r (rows (db w')) /\ id r = i /\ status r <> NONE).
    { intros w1 Hdb E [_ [inv [Hbody Hid]]]. injection E as <- <-.
      simpl in Hbody. injection Hbody as <-. rewrite invite_json_id in Hid.
      exists invite. rewrite Hdb. split; [exact Hin|]. split; [exact Hid|].
      rewrite Hst. discriminate. }
    rewrite Hst. cbn [status_eqb]. unfold try_catch, bind.
    rewrite checkInviteOnChain_outcome.
    destruct (adapter_outcome_db env (signer invite) w0) as [Hdb _].
    destruct (adapter_outcome env (signer invite) w0) as [[d|e] w1];
      cbn [fst snd] in *; [|apply (Hkeep w1 Hdb)].
    destruct (claimed d); [|apply (Hkeep w1 Hdb)].
    destruct (markInviteAsUsed_ok env (secret invite) w1) as [b Hb].
    destruct (markInviteAsUsed env (secret invite) w1) as [mr w2].
    cbn [fst] in Hb. subst mr.
    pose proof (getNextInvite_some env w2) as Hsome2.
    destruct (getNextInvite_ok env w2) as [o Ho].
    destruct (getNextInvite env w2) as [nr w3]. cbn [fst snd] in *. subst nr.
    destruct o as [next|]; cbn [ret fst snd].
    + intros E [_ [inv [Hbody Hid]]]. injection E as <- <-. simpl in Hbody.
      injection Hbody as <-. rewrite invite_json_id in Hid.
      destruct (Hsome2 next eq_refl) as [Hn Hs].
      exists next. split; [exact Hn|]. split; [exact Hid|]. rewrite Hs. discriminate.
    + intros E [Hc _]. injection E as <- <-. discriminate.
  - cbn [ret fst]. intros E [Hc _]. injection E as <- <-. discriminate.
  - cbn [ret fst]. intros E [Hc _]. injection E as <- <-. discriminate.
Qed.

Lemma handle_dispenses env q w resp w' i :
  handle env q w = (Ok resp, w') ->
  dispenses resp i ->
  exists r, In r (rows (db w')) /\ id r = i /\ status r <> NONE.
Proof.
  intros E Hd.
  assert (Hfst : fst (handle env q w) = Ok resp) by (rewrite E; reflexivity).
  destruct q; simpl in E, Hfst.
  - destruct (addInvite_route_never_dispenses env sec addr w resp Hfst i Hd).
  - destruct (addInvite_route_auth_never_dispenses env apiKey sec sgn w resp Hfst i Hd).
  - apply (getInvite_route_dispenses env w resp w' i E Hd).
  - destruct (checkInvite_route_never_dispenses env sec addr w resp Hfst i Hd).
  - destruct (health_route_never_dispenses w resp Hfst i Hd).
Qed.

Lemma not_none_later (r r' : Invite) :
  later_of r r' -> status r <> NONE -> status r' <> NONE.
Proof.
  intros [_ [_ [_ Hrank]]] Hne E. rewrite E in Hrank.
  destruct (status r); simpl in Hrank; [contradiction | lia | lia].
Qed.

(** Whatever was handed out during a run is stored at the end of it,
    and not as [none]. *)
Lemma serve_dispensed env qs :
  forall w, table_ok (db w) ->
  forall resp i,
    In resp (fst (serve env qs w)) -> dispenses resp i ->
    exists r, In r (rows (db (snd (serve env qs w)))) /\ id r = i /\ status r <> NONE.
Proof.
  induction qs as [|q qs IH]; intros w Hok resp i Hin Hd; [destruct Hin|].
  rewrite serve_cons in Hin |- *. cbn [fst snd] in Hin |- *.
  pose proof (keeps_handle env q w Hok) as [Hok1 _].
  destruct (handle env q w) as [[resp0|e] w1] eqn:Hh; cbn [fst snd] in *.
  - destruct Hin as [<-|Hin]; [|apply (IH w1 Hok1 resp i Hin Hd)].
    destruct (handle_dispenses env q w resp0 w1 i Hh Hd) as [r [Hr [Hid Hst]]].
    destruct (serve_advances env qs w1 Hok1) as [_ Hrows].
    destruct (Hrows r Hr) as [r' [Hr' Hl]].
    exists r'. split; [exact Hr'|]. split.
    + destruct Hl as [E _]. congruence.
    + apply (not_none_later r r' Hl Hst).
  - apply (IH w1 Hok1 resp i Hin Hd).
Qed.

(** ** Straight from [none] to [used] *)

(** C9. In any state reached from the empty table by serving requests,
    when [POST /checkInvite] names the secret of an invite whose status
    is [none] and the adapter reports [claimed = true] for the address
    in the request, the answer is 200 with [isUsed = true] and the row
    is now [used], stamped with the current time, although no earlier
    response ever handed that invite out. *)
Theorem checkInvite_none_to_used
    (env : Env) (qs : list Request) (sec addr : option string)
    (inv : Invite) (d : ChainData) :
  let w := snd (serve env qs boot) in
  let date := datetime_now env (ticks w) in
  In inv (rows (db w)) ->
  status inv = NONE ->
  falsy sec = false -> falsy addr = false ->
  secret inv = js_string sec ->
  oracle_reports env w (js_string addr) d ->
  claimed d = true ->
  fst (checkInvite_route env sec addr w) =
    Ok (mkResponse 200 (CheckJson true (with_status USED date inv))) /\
  In (with_status USED date inv) (rows (db (snd (checkInvite_route env sec addr w)))) /\
  (forall resp, In resp (fst (serve env qs boot)) -> ~ dispenses resp (id inv)).
Proof.
  intros w date Hin Hst Hsec Haddr Hs Hor Hcl.
  pose proof (table_ok_reachable env qs) as Hok. fold w in Hok.
  destruct Hok as [Hids Hsecs].
  pose proof (find_unique secret String.eqb string_eqb_ok _ _ Hsecs Hin) as Hf.
  rewrite Hs in Hf.
  rewrite (checkInvite_route_found env sec addr inv w Hsec Haddr Hf).
  unfold checkInvite_answer. rewrite Hst. cbn [status_eqb].
  unfold oracle_reports in Hor. rewrite checkInviteOnChain_outcome in Hor.
  rewrite Hor, Hcl. cbn [fst snd].
  split; [reflexivity|]. split.
  - cbn [after_update db rows].
    destruct (adapter_outcome_db env (js_string addr) w) as [-> ->].
    apply update_hit; auto.
  - intros resp Hresp Hd.
    destruct (serve_dispensed env qs boot table_ok_boot resp (id inv) Hresp Hd)
      as [r [Hr [Hid Hne]]].
    fold w in Hr.
    assert (r = inv) by (apply (same_id_same_row (rows (db w))); auto).
    subst r. contradiction.
Qed.

Lemma checkInvite_none_to_used_witness :
  let env := sample_env node_up true in
  let qs := [PostAddInviteAuth (Some "your-secret-api-key")
               (Some "deadbeef") (Some "0x00000000000000000000000000000000000000a1")] in
  let inv := mkInvite 1 "deadbeef" "0x00000000000000000000000000000000000000a1"
                      NONE "2024-01-01 00:00:00" in
  In inv (rows (db (snd (serve env qs boot)))) /\
  fst (checkInvite_route env (Some "deadbeef")
         (Some "0x00000000000000000000000000000000000000a1") (snd (serve env qs boot))) =
    Ok (mkResponse 200
          (CheckJson true (with_status USED "2024-01-01 00:00:01" inv))).
Proof.
  intros env qs inv. split.
  - left; reflexivity.
  - apply (checkInvite_none_to_used env qs (Some "deadbeef")
             (Some "0x00000000000000000000000000000000000000a1") inv
             (mkChainData "0x00000000000000000000000000000000000000aa" true));
      try reflexivity.
    left; reflexivity.
Defined.

(** ** The replacement after a claimed pending invite *)

Lemma adapter_claimed_world env sgn w d :
  fst (adapter_outcome env sgn w) = Ok d -> claimed d = true ->
  snd (adapter_outcome env sgn w) = one_more_call w.
Proof.
  unfold adapter_outcome.
  destruct (encodeFunctionData env _) as [data|e].
  - intros _ _.
    destruct (client_call env (calls w) data) as [e|o]; [reflexivity|].
    destruct (falsy o); [reflexivity|].
    destruct (decodeAbiParameters env (js_string o)); reflexivity.
  - simpl. intros E. injection E as <-. discriminate.
Qed.

Lemma no_none_after_used i date l :
  (forall r, In r l -> status r <> NONE) ->
  forall r, In r (update_where_id i USED date l) -> status r <> NONE.
Proof.
  intros H r Hr. apply update_inv in Hr.
  destruct Hr as [x [Hx [[_ ->]|[_ ->]]]]; [discriminate | apply H; exact Hx].
Qed.

(** After the oldest pending invite [a] turns out to be claimed,
    [GET /getInvite] marks it [used] and answers with whatever a second
    [getNextInvite] returns; one call went to the node in all, none of
    them about the replacement. *)
Lemma getInvite_route_replacement env w a d :
  table_ok (db w) ->
  (forall r, In r (rows (db w)) -> status r <> NONE) ->
  order_by_limit1 String.leb updateDate (where_status PENDING (rows (db w))) = Some a ->
  oracle_reports env w (signer a) d -> claimed d = true ->
  let w2 := after_update env (id a) USED (one_more_call w) in
  getInvite_route env w =
  (match order_by_limit1 String.leb updateDate (where_status PENDING (rows (db w2))) with
   | Some b => Ok (mkResponse 200 (InviteJson b))
   | None => Ok NO_INVITES
   end, w2).
Proof.
  intros [_ Hsecs] Hnone Hsel Hor Hcl w2.
  assert (Hn : order_by_limit1 Z.leb id (where_status NONE (rows (db w))) = None).
  { apply order_by_limit1_none. apply where_status_nil. exact Hnone. }
  pose proof (order_by_limit1_In _ _ _ _ Hsel) as Ha.
  apply where_status_In in Ha. destruct Ha as [Ha Hst].
  unfold getInvite_route. unfold try_catch at 1. unfold bind at 1.
  rewrite (getNextInvite_no_none env w Hn), Hsel, Hst. cbn [status_eqb].
  unfold try_catch, bind. rewrite checkInviteOnChain_outcome.
  unfold oracle_reports in Hor. rewrite checkInviteOnChain_outcome in Hor.
  pose proof (adapter_claimed_world env (signer a) w d Hor Hcl) as Hw.
  destruct (adapter_outcome env (signer a) w) as [res w1].
  cbn [fst snd] in Hor, Hw. subst res w1. rewrite Hcl.
  pose proof (find_unique secret String.eqb string_eqb_ok _ _ Hsecs Ha) as Hf.
  rewrite (markInviteAsUsed_found env (secret a) a (one_more_call w) Hf).
  fold w2.
  assert (Hn2 : order_by_limit1 Z.leb id (where_status NONE (rows (db w2))) = None).
  { apply order_by_limit1_none. apply where_status_nil.
    apply no_none_after_used. exact Hnone. }
  rewrite (getNextInvite_no_none env w2 Hn2).
  destruct (order_by_limit1 String.leb updateDate (where_status PENDING (rows (db w2))))
    as [b|]; [rewrite invite_json_id|]; reflexivity.
Qed.

(** C2. Two pending invites, both claimed on chain: [GET /getInvite]
    marks the older one [used] and answers with the other, still
    [pending] in the table, after a single call to the node, although
    the adapter reports that one claimed as well. *)
Theorem getInvite_replacement_not_reconciled :
  let env := sample_env node_up true in
  let w := world_of [invite_A PENDING; invite_B PENDING] in
  getInvite_route env w =
    (Ok (mkResponse 200 (InviteJson (invite_B PENDING))),
     {| db := {| rows := [with_status USED "2024-01-01 00:00:00" (invite_A PENDING);
                          invite_B PENDING];
                 sqlite_sequence := 2 |};
        ticks := 1; calls := 1 |}) /\
  fst (checkInviteOnChain env (signer (invite_B PENDING)) (snd (getInvite_route env w))) =
    Ok (mkChainData "0x00000000000000000000000000000000000000aa" true).
Proof. split; reflexivity. Qed.

(** ** Concrete runs *)

Lemma table_ok_two (a b : InviteStatus) : table_ok (db (world_of [invite_A a; invite_B b])).
Proof. split; simpl; repeat constructor; simpl; intuition discriminate. Qed.

Lemma table_ok_one (a : InviteStatus) : table_ok (db (world_of [invite_A a])).
Proof. split; simpl; repeat constructor; simpl; intuition. Qed.

Lemma getNextInvite_precedence_witness :
  let env := sample_env node_up false in
  let w := world_of [invite_A PENDING; invite_B NONE] in
  table_ok (db w) /\
  exists n,
    In n (rows (db w)) /\ status n = NONE /\
    fst (getNextInvite env w) =
      Ok (Some (with_status PENDING (datetime_now env (ticks w)) n)).
Proof.
  intros env w. split; [apply table_ok_two|].
  destruct (proj1 (getNextInvite_precedence env w (table_ok_two PENDING NONE)))
    as [n [Hn [Hs [_ [Hres _]]]]].
  - exists (invite_B NONE). split; [right; left; reflexivity | reflexivity].
  - exists n. split; [exact Hn|]. split; [exact Hs | exact Hres].
Defined.

Lemma status_only_moves_forward_witness :
  let env := sample_env node_up true in
  let qs := [GetInvite; PostCheckInvite (Some "deadbeef") (Some "0xabc"); GetInvite] in
  let w := world_of [invite_A NONE] in
  table_ok (db w) /\ In (invite_A NONE) (rows (db w)) /\
  exists r',
    In r' (rows (db (snd (serve env qs w)))) /\
    id r' = 1 /\ secret r' = "deadbeef" /\
    signer r' = "0x00000000000000000000000000000000000000a1" /\
    rank NONE <= rank (status r') /\
    (NONE = USED -> status r' = USED).
Proof.
  intros env qs w.
  split; [apply table_ok_one|]. split; [left; reflexivity|].
  apply (status_only_moves_forward env qs w (invite_A NONE)).
  - apply table_ok_one.
  - left; reflexivity.
Defined.

Lemma addInvite_duplicate_secret_witness :
  let env := sample_env node_up false in
  let w := world_of [invite_A NONE] in
  In (invite_A NONE) (rows (db w)) /\
  (fst (addInvite env "deadbeef" "0xabc" w) = Throw UNIQUE_FAILED /\
   db (snd (addInvite env "deadbeef" "0xabc" w)) = db w) /\
  fst (addInvite_route_auth env (Some "your-secret-api-key")
         (Some "deadbeef") (Some "0xabc") w) = Ok CONFLICT /\
  fst (addInvite_route env (Some "deadbeef")
         (Some "0x00000000000000000000000000000000000000a1") w) = Ok CONFLICT.
Proof.
  intros env w.
  assert (Hin : In (invite_A NONE) (rows (db w))) by (left; reflexivity).
  destruct (addInvite_duplicate_secret env w (invite_A NONE) Hin) as [H1 [H2 H3]].
  split; [exact Hin|]. split; [exact (H1 "0xabc")|]. split.
  - apply (proj2 (H2 (Some "your-secret-api-key") (Some "deadbeef") (Some "0xabc")
                     eq_refl)); reflexivity.
  - apply (proj2 (H3 (Some "deadbeef")
                     (Some "0x00000000000000000000000000000000000000a1") eq_refl)
             (mkChainData "0x00000000000000000000000000000000000000aa" false));
      try reflexivity.
    discriminate.
Defined.

(** Two invites are added and dispensed in insertion order; a third
    dispense, with neither claimed on chain, hands out the first again. *)
Example scenario_dispense_in_order :
  let env := sample_env node_up false in
  let key := Some "your-secret-api-key" in
  map (fun resp => match body resp with
                   | InviteJson inv => (code resp, id inv, status inv)
                   | _ => (code resp, 0, NONE)
                   end)
      (fst (serve env
              [PostAddInviteAuth key (Some "deadbeef") (Some "0xa1");
               PostAddInviteAuth key (Some "cafe") (Some "0xb2");
               GetInvite; GetInvite; GetInvite] boot)) =
  [(201, 1, NONE); (201, 2, NONE); (200, 1, PENDING); (200, 2, PENDING);
   (200, 1, PENDING)].
Proof. reflexivity. Qed.

(** A single pending invite that is claimed on chain: it becomes
    [used] and the dispense answers 404. *)
Example scenario_claimed_pending :
  let env := sample_env node_up true in
  let out := serve env [GetInvite; GetHealth] (world_of [invite_A PENDING]) in
  map code (fst out) = [404; 200] /\
  map status (rows (db (snd out))) = [USED].
Proof. split; reflexivity. Qed.

Example scenario_field_checks :
  hex_string_re "0x1f" = true /\ hex_string_re "0x" = false /\
  hex_string_re "xyz" = false /\
  address_re "0x00000000000000000000000000000000000000aa" = true /\
  address_re "0xaa" = false /\
  signerAddress_of "0Xab" = "0Xab" /\ signerAddress_of "ab" = "0xab".
Proof. repeat split; reflexivity. Qed.

(** * The rest of the store *)

(** ** Inserting and looking up *)

Lemma find_snoc {A : Type} (p : A -> bool) (l : list A) (x : A) :
  (forall y, In y l -> p y = false) -> p x = true -> find p (l ++ [x]) = Some x.
Proof.
  intros Hl Hx. induction l as [|y t IH]; simpl.
  - rewrite Hx. reflexivity.
  - rewrite (Hl y (or_introl eq_refl)). apply IH.
    intros z Hz. apply Hl. right. exact Hz.
Qed.

Lemma find_absent {A : Type} (p : A -> bool) (l : list A) :
  (forall y, In y l -> p y = false) -> find p l = None.
Proof.
  intros Hl. destruct (find p l) as [x|] eqn:E; [|reflexivity].
  apply find_some in E. destruct E as [Hin Hp].
  rewrite (Hl x Hin) in Hp. discriminate.
Qed.

Lemma secret_absent (l : list Invite) (sec : string) :
  (forall r, In r l -> secret r <> sec) ->
  existsb (fun r => String.eqb (secret r) sec) l = false.
Proof.
  intros H. destruct (existsb _ l) eqn:E; [|reflexivity].
  apply existsb_exists in E. destruct E as [r [Hr Hs]].
  apply String.eqb_eq in Hs. destruct (H r Hr Hs).
Qed.

Lemma new_invite_above env sec sgn w r :
  In r (rows (db w)) -> id r < id (new_invite env sec sgn w).
Proof.
  intros Hr. pose proof (max_rowid_bound _ _ Hr). simpl. lia.
Qed.

Lemma addInvite_fresh_eq env sec sgn w :
  existsb (fun r => String.eqb (secret r) sec) (rows (db w)) = false ->
  addInvite env sec sgn w = (Ok (new_invite env sec sgn w), after_insert env sec sgn w).
Proof.
  intros E. unfold addInvite, bind, now, get_db. cbn [db rows ticks calls].
  rewrite E. unfold set_db, getInviteById, bind, get_rows.
  cbn [db rows ticks calls sqlite_sequence].
  fold (new_invite env sec sgn w).
  rewrite (find_snoc _ (rows (db w)) (new_invite env sec sgn w)).
  - reflexivity.
  - intros y Hy. apply Z.eqb_neq.
    pose proof (new_invite_above env sec sgn w y Hy). simpl in *. lia.
  - apply Z.eqb_refl.
Qed.

(** X1. With a secret that no stored invite has, [addInvite] appends
    one row and returns it: status [none], the given secret and signer,
    the current time, and an id above every stored id and above the
    [AUTOINCREMENT] counter. Right afterwards the invite is found both
    by its id and by its secret, and the rows are the old ones plus
    this one. *)
Theorem addInvite_fresh_secret (env : Env) (sec sgn : string) (w : World) :
  (forall r, In r (rows (db w)) -> secret r <> sec) ->
  let inv := new_invite env sec sgn w in
  let w' := after_insert env sec sgn w in
  addInvite env sec sgn w = (Ok inv, w') /\
  status inv = NONE /\ secret inv = sec /\ signer inv = sgn /\
  updateDate inv = datetime_now env (ticks w) /\
  (forall r, In r (rows (db w)) -> id r < id inv) /\
  sqlite_sequence (db w) < id inv /\
  getInviteById (id inv) w' = (Ok inv, w') /\
  getInviteBySecret sec w' = (Ok (Some inv), w') /\
  rows (db w') = (rows (db w) ++ [inv])%list.
Proof.
  intros Hfresh inv w'.
  pose proof (secret_absent _ _ Hfresh) as E.
  split; [apply addInvite_fresh_eq; exact E|].
  repeat (split; [reflexivity|]).
  split; [intros r Hr; apply new_invite_above; exact Hr|].
  split; [simpl; lia|].
  split; [|split; [|reflexivity]].
  - unfold getInviteById, bind, get_rows. cbn [w' after_insert db rows].
    rewrite (find_snoc _ (rows (db w)) inv); [reflexivity | | apply Z.eqb_refl].
    intros y Hy. apply Z.eqb_neq.
    pose proof (new_invite_above env sec sgn w y Hy). fold inv in H. lia.
  - rewrite getInviteBySecret_eq. cbn [w' after_insert db rows].
    rewrite (find_snoc _ (rows (db w)) inv); [reflexivity | | apply String.eqb_refl].
    intros y Hy. apply String.eqb_neq. apply Hfresh. exact Hy.
Qed.

Lemma addInvite_fresh_secret_witness :
  let env := sample_env node_up false in
  let w := world_of [invite_A PENDING] in
  addInvite env "cafe" "0xb2" w =
  (Ok (mkInvite 2 "cafe" "0xb2" NONE "2024-01-01 00:00:00"),
   after_insert env "cafe" "0xb2" w).
Proof.
  intros env w. apply (addInvite_fresh_secret env "cafe" "0xb2" w).
  intros r [<-|[]]. discriminate.
Defined.

Lemma lookups_by_key_aux (w : World) :
  table_ok (db w) ->
  forall r, In r (rows (db w)) ->
    getInviteById (id r) w = (Ok r, w) /\
    getInviteBySecret (secret r) w = (Ok (Some r), w).
Proof.
  intros [Hids Hsecs] r Hr. split.
  - unfold getInviteById, bind, get_rows.
    rewrite (find_unique id Z.eqb Z.eqb_eq _ _ Hids Hr). reflexivity.
  - rewrite getInviteBySecret_eq.
    rewrite (find_unique secret String.eqb string_eqb_ok _ _ Hsecs Hr). reflexivity.
Qed.

(** X2. On a table that meets its key constraints, every stored invite
    is returned by [getInviteById] with its id and by
    [getInviteBySecret] with its secret; an id that no row has makes
    [getInviteById] throw "Invite not found", a secret that no row has
    makes [getInviteBySecret] return [null]. None of them writes. *)
Theorem lookups_by_key (w : World) :
  table_ok (db w) ->
  (forall r, In r (rows (db w)) ->
     getInviteById (id r) w = (Ok r, w) /\
     getInviteBySecret (secret r) w = (Ok (Some r), w)) /\
  (forall i, (forall r, In r (rows (db w)) -> id r <> i) ->
     getInviteById i w = (Throw (mkError "Invite not found"), w)) /\
  (forall sec, (forall r, In r (rows (db w)) -> secret r <> sec) ->
     getInviteBySecret sec w = (Ok None, w)).
Proof.
  intros Hok. split; [|split].
  - apply lookups_by_key_aux. exact Hok.
  - intros i Hi. unfold getInviteById, bind, get_rows.
    rewrite find_absent; [reflexivity|].
    intros y Hy. apply Z.eqb_neq. apply Hi. exact Hy.
  - intros sec Hs. rewrite getInviteBySecret_eq.
    rewrite find_absent; [reflexivity|].
    intros y Hy. apply String.eqb_neq. apply Hs. exact Hy.
Qed.

Lemma lookups_by_key_witness :
  let w := world_of [invite_A USED; invite_B NONE] in
  getInviteById 2 w = (Ok (invite_B NONE), w) /\
  getInviteBySecret "cafe" w = (Ok (Some (invite_B NONE)), w) /\
  getInviteById 7 w = (Throw (mkError "Invite not found"), w) /\
  getInviteBySecret "beef" w = (Ok None, w).
Proof.
  intros w.
  destruct (lookups_by_key w (table_ok_two USED NONE)) as [H1 [H2 H3]].
  split; [|split; [|split]].
  - apply (H1 (invite_B NONE)). right; left; reflexivity.
  - apply (H1 (invite_B NONE)). right; left; reflexivity.
  - apply H2. intros r [<-|[<-|[]]]; discriminate.
  - apply H3. intros r [<-|[<-|[]]]; discriminate.
Defined.

(** ** Writing a status *)

Lemma update_absent i st d l :
  (forall r, In r l -> id r <> i) -> update_where_id i st d l = l.
Proof.
  intros H. unfold update_where_id.
  rewrite <- (map_id l) at 2. apply map_ext_in.
  intros r Hr. rewrite (proj2 (Z.eqb_neq _ _) (H r Hr)). reflexivity.
Qed.


Lemma table_ok_after_update env i st w :
  table_ok (db w) -> table_ok (db (after_update env i st w)).
Proof.
  intros [Hids Hsecs]. unfold table_ok. cbn [after_update db rows].
  rewrite update_ids, update_secrets. auto.
Qed.





(** * Invariants of the table over whole runs *)

Lemma preserves_refl I (s : Store) : preserves I s s.
Proof. intros H. exact H. Qed.

Lemma preserves_trans I (a b c : Store) :
  preserves I a b -> preserves I b c -> preserves I a c.
Proof. intros Hab Hbc H. apply Hbc, Hab, H. Qed.

Ltac keeps_steps R Rrefl Rtrans prim :=
  repeat first
    [ prim
    | apply (keeps_checkInviteOnChain R Rrefl)
    | apply (keeps_getInviteBySecret R Rrefl)
    | apply (keeps_getInviteById R Rrefl)
    | apply (keeps_getInviteStats R Rrefl)
    | apply (keeps_get_rows R Rrefl)
    | apply (keeps_ret R Rrefl)
    | apply (keeps_throw R Rrefl)
    | apply (keeps_lift R Rrefl)
    | apply (keeps_bind R Rtrans); [|intro]
    | apply (keeps_try_catch R Rtrans); [|intro]
    | match goal with
      | |- keeps _ (if ?b then _ else _) => destruct b eqn:?
      | |- keeps _ (match ?x with _ => _ end) => destruct x eqn:?
      end ].

Section StoreInvariant.
Variable env : Env.
Variable I : Store -> Prop.
Variable insertable : string -> string -> Prop.

Hypothesis I_update :
  forall s i st d,
    I s -> I {| rows := update_where_id i st d (rows s);
                sqlite_sequence := sqlite_sequence s |}.

Hypothesis I_insert :
  forall s sec sgn d,
    insertable sec sgn ->
    existsb (fun r => String.eqb (secret r) sec) (rows s) = false ->
    I s ->
    let rowid := Z.max (sqlite_sequence s) (max_rowid (rows s)) + 1 in
    I {| rows := rows s ++ [mkInvite rowid sec sgn NONE d]; sqlite_sequence := rowid |}.

Hypothesis insertable_checked :
  forall sec sgn,
    falsy sec = false -> falsy sgn = false ->
    hex_string_re (js_string sec) = true ->
    insertable (js_string sec) (js_string sgn).

Lemma inv_updateInviteStatus i st : keeps (preserves I) (updateInviteStatus env i st).
Proof.
  intros w H. rewrite updateInviteStatus_eq. cbn [snd after_update db].
  apply I_update. exact H.
Qed.

Lemma inv_addInvite sec sgn :
  insertable sec sgn -> keeps (preserves I) (addInvite env sec sgn).
Proof.
  intros Hins w H.
  destruct (existsb (fun r => String.eqb (secret r) sec) (rows (db w))) eqn:E.
  - rewrite (addInvite_duplicate_eq env sec sgn w E). exact H.
  - rewrite (addInvite_fresh_eq env sec sgn w E). cbn [snd after_insert db].
    apply (I_insert (db w) sec sgn _ Hins E H).
Qed.

Ltac inv_walk prim :=
  keeps_steps (preserves I) (preserves_refl I) (preserves_trans I)
    ltac:(first [ apply inv_updateInviteStatus | prim ]).

Lemma inv_getNextInvite : keeps (preserves I) (getNextInvite env).
Proof. unfold getNextInvite. inv_walk fail. Qed.

Lemma inv_markInviteAsUsed sec : keeps (preserves I) (markInviteAsUsed env sec).
Proof. unfold markInviteAsUsed. inv_walk fail. Qed.

Lemma inv_getInvite_route : keeps (preserves I) (getInvite_route env).
Proof.
  unfold getInvite_route.
  inv_walk ltac:(first [ apply inv_getNextInvite | apply inv_markInviteAsUsed ]).
Qed.

Lemma inv_checkInvite_route sec addr : keeps (preserves I) (checkInvite_route env sec addr).
Proof.
  unfold checkInvite_route, non_null.
  inv_walk ltac:(apply inv_markInviteAsUsed).
Qed.

Lemma inv_addInvite_route sec addr : keeps (preserves I) (addInvite_route env sec addr).
Proof.
  unfold addInvite_route, addInvite_catch.
  inv_walk ltac:(apply inv_addInvite; apply insertable_checked;
                 [assumption | assumption | apply negb_false_iff; assumption]).
Qed.

Lemma inv_addInvite_route_auth k sec sgn :
  keeps (preserves I) (addInvite_route_auth env k sec sgn).
Proof.
  unfold addInvite_route_auth, addInvite_catch.
  inv_walk ltac:(apply inv_addInvite; apply insertable_checked;
                 [assumption | assumption | apply negb_false_iff; assumption]).
Qed.

Lemma inv_handle q : keeps (preserves I) (handle env q).
Proof.
  destruct q; simpl.
  - apply inv_addInvite_route.
  - apply inv_addInvite_route_auth.
  - apply inv_getInvite_route.
  - apply inv_checkInvite_route.
  - unfold health_route. inv_walk fail.
Qed.

Lemma inv_serve qs : forall w, I (db w) -> I (db (snd (serve env qs w))).
Proof.
  induction qs as [|q qs IH]; intros w H; [exact H|].
  rewrite serve_cons. cbn [snd]. apply IH. apply (inv_handle q w H).
Qed.
End StoreInvariant.

(** ** Ids ascend, and [getAllInvites] lists the rows as stored *)

Lemma ids_ascending_update s i st d :
  ids_ascending s ->
  ids_ascending {| rows := update_where_id i st d (rows s);
                   sqlite_sequence := sqlite_sequence s |}.
Proof.
  intros [Hs [Hb Hq]]. unfold ids_ascending. cbn [rows sqlite_sequence].
  rewrite update_ids. split; [exact Hs|]. split; [|exact Hq].
  apply Forall_forall. intros r Hr. apply update_inv in Hr.
  destruct Hr as [x [Hx [[_ ->]|[_ ->]]]];
    apply (proj1 (Forall_forall _ _) Hb x Hx).
Qed.

Lemma StronglySorted_snoc (l : list Z) (z : Z) :
  StronglySorted Z.lt l -> Forall (fun y => y < z) l ->
  StronglySorted Z.lt (l ++ [z]).
Proof.
  intros Hs Hall. induction Hs as [|y t Ht IH Hy]; simpl.
  - constructor; constructor.
  - inversion Hall as [|? ? Hyz Htz]; subst. constructor.
    + apply IH. exact Htz.
    + apply Forall_app. split; [exact Hy | constructor; [exact Hyz | constructor]].
Qed.

Lemma ids_ascending_insert s sec sgn d :
  ids_ascending s ->
  let rowid := Z.max (sqlite_sequence s) (max_rowid (rows s)) + 1 in
  ids_ascending {| rows := rows s ++ [mkInvite rowid sec sgn NONE d];
                   sqlite_sequence := rowid |}.
Proof.
  intros [Hs [Hb Hq]] rowid. unfold ids_ascending. cbn [rows sqlite_sequence].
  rewrite map_app. cbn [map id]. split; [|split].
  - apply StronglySorted_snoc; [exact Hs|].
    apply Forall_forall. intros y Hy. apply in_map_iff in Hy.
    destruct Hy as [r [<- Hr]]. pose proof (max_rowid_bound _ _ Hr).
    unfold rowid. lia.
  - apply Forall_app. split.
    + apply Forall_forall. intros r Hr.
      pose proof (proj1 (Forall_forall _ _) Hb r Hr). cbv beta in H.
      unfold rowid. lia.
    + constructor; [|constructor]. cbn [id]. unfold rowid. lia.
  - unfold rowid. lia.
Qed.

Lemma order_by_id_asc_sorted (l : list Invite) :
  StronglySorted Z.lt (map id l) -> order_by_id_asc l = l.
Proof.
  induction l as [|x t IH]; [reflexivity|].
  cbn [map]. intros Hs. inversion Hs as [|? ? Ht Hx]; subst.
  unfold order_by_id_asc in *. cbn [fold_right]. rewrite (IH Ht).
  destruct t as [|y t']; [reflexivity|].
  cbn [insert_by_id]. cbn [map] in Hx. inversion Hx as [|? ? Hxy _]; subst.
  rewrite (proj2 (Z.leb_le _ _)); [reflexivity | lia].
Qed.

Lemma ascending_NoDup (l : list Z) : StronglySorted Z.lt l -> NoDup l.
Proof.
  intros Hs. induction Hs as [|y t Ht IH Hy]; constructor; [|exact IH].
  intros Hin. pose proof (proj1 (Forall_forall _ _) Hy y Hin). lia.
Qed.

(** X5. Starting from a table whose rows are in ascending id order,
    with ids between 1 and the [AUTOINCREMENT] counter, every sequence
    of requests leaves it so: ids are never reused or reordered, hence
    stay distinct, and [getAllInvites] returns exactly the stored rows
    in their order without writing. This holds in particular for every
    state reached from the empty table. *)
Theorem ids_ascend_over_runs (env : Env) (qs : list Request) (w : World) :
  ids_ascending (db w) ->
  let w' := snd (serve env qs w) in
  ids_ascending (db w') /\
  NoDup (map id (rows (db w'))) /\
  getAllInvites w' = (Ok (rows (db w')), w').
Proof.
  intros H w'.
  assert (H' : ids_ascending (db w')).
  { apply (inv_serve env ids_ascending (fun _ _ => True)); auto.
    - intros s i st d. apply ids_ascending_update.
    - intros s sec sgn d _ _ Hs. apply ids_ascending_insert. exact Hs. }
  split; [exact H'|]. destruct H' as [Hs _]. split.
  - apply ascending_NoDup. exact Hs.
  - unfold getAllInvites, bind, get_rows, ret.
    rewrite (order_by_id_asc_sorted _ Hs). reflexivity.
Qed.

Lemma ids_ascend_over_runs_witness :
  let env := sample_env node_up false in
  let key := Some "your-secret-api-key" in
  let qs := [PostAddInviteAuth key (Some "deadbeef") (Some "0xa1");
             GetInvite;
             PostAddInviteAuth key (Some "cafe") (Some "0xb2")] in
  ids_ascending (db boot) /\
  map id (rows (db (snd (serve env qs boot)))) = [1; 2] /\
  fst (getAllInvites (snd (serve env qs boot))) =
    Ok (rows (db (snd (serve env qs boot)))).
Proof.
  intros env key qs.
  assert (Hb : ids_ascending (db boot)).
  { split; [constructor | split; [constructor | simpl; lia]]. }
  split; [exact Hb|]. split; [reflexivity|].
  destruct (ids_ascend_over_runs env qs boot Hb) as [_ [_ Hall]].
  rewrite Hall. reflexivity.
Defined.

(** ** Only checked fields are stored *)

Lemma falsy_false_nonempty (s : option string) : falsy s = false -> js_string s <> "".
Proof. destruct s as [[|c r]|]; simpl; intros H; [discriminate | discriminate | discriminate]. Qed.

(** X6. For requests whose body fields are JSON strings or missing:
    starting from a table in which every secret passes the hex check
    and every signer is non-empty, every sequence of such requests
    leaves it so, since both [POST /addInvite] handlers insert only
    after these checks; in particular a stored secret is never empty.
    A body with a field of another JSON type is not covered: the
    handlers do not check the type, and the regular expression is then
    tested on the value's text. *)
Theorem stored_fields_checked
    (env : Env) (raws : list RawRequest) (qs : list Request) (w : World) :
  typed_all raws = Some qs ->
  fields_checked (db w) ->
  forall r, In r (rows (db (snd (serve env qs w)))) ->
    hex_string_re (secret r) = true /\ signer r <> "" /\
    falsy (Some (secret r)) = false.
Proof.
  intros _ H r Hr.
  assert (H' : fields_checked (db (snd (serve env qs w)))).
  { apply (inv_serve env fields_checked
             (fun sec sgn => hex_string_re sec = true /\ sgn <> "")); auto.
    - intros s i st d Hs. unfold fields_checked in *. cbn [rows].
      apply Forall_forall. intros x Hx. apply update_inv in Hx.
      destruct Hx as [y [Hy [[_ ->]|[_ ->]]]];
        apply (proj1 (Forall_forall _ _) Hs y Hy).
    - intros s sec sgn d Hins _ Hs. unfold fields_checked in *. cbn [rows].
      apply Forall_app. split; [exact Hs|]. constructor; [exact Hins | constructor].
    - intros sec sgn _ Hsgn Hhex. split; [exact Hhex|].
      apply falsy_false_nonempty. exact Hsgn. }
  destruct (proj1 (Forall_forall _ _) H' r Hr) as [Hhex Hsgn].
  split; [exact Hhex|]. split; [exact Hsgn|].
  destruct (secret r) as [|c s]; [discriminate Hhex | reflexivity].
Qed.

Lemma stored_fields_checked_witness :
  let env := sample_env node_up false in
  let key := Some "your-secret-api-key" in
  let raws := [RawAddInviteAuth key (JString "0xBEEF") (JString "anyone");
               RawAddInviteAuth key (JString "not hex") (JString "anyone");
               RawAddInviteAuth key JAbsent (JString "anyone")] in
  let qs := [PostAddInviteAuth key (Some "0xBEEF") (Some "anyone");
             PostAddInviteAuth key (Some "not hex") (Some "anyone");
             PostAddInviteAuth key None (Some "anyone")] in
  typed_all raws = Some qs /\
  typed_all [RawAddInviteAuth key JOther (JString "anyone")] = None /\
  fields_checked (db boot) /\
  map secret (rows (db (snd (serve env qs boot)))) = ["0xBEEF"] /\
  forall r, In r (rows (db (snd (serve env qs boot)))) -> hex_string_re (secret r) = true.
Proof.
  intros env key raws qs.
  split; [reflexivity|]. split; [reflexivity|].
  split; [constructor|]. split; [reflexivity|].
  intros r Hr.
  apply (stored_fields_checked env raws qs boot eq_refl (Forall_nil _) r Hr).
Defined.

(** * The rest of [GET /getInvite] *)

Lemma getNextInvite_calls env w :
  calls (snd (getNextInvite env w)) = calls w.
Proof.
  destruct (order_by_limit1 Z.leb id (where_status NONE (rows (db w)))) as [n|] eqn:Hsel.
  - destruct (getNextInvite_none_row env w n Hsel) as [row [-> _]]. reflexivity.
  - rewrite (getNextInvite_no_none env w Hsel). reflexivity.
Qed.

Lemma markInviteAsUsed_calls env sec w :
  calls (snd (markInviteAsUsed env sec w)) = calls w.
Proof.
  destruct (find (fun r => String.eqb (secret r) sec) (rows (db w))) as [inv|] eqn:Hf.
  - rewrite (markInviteAsUsed_found env sec inv w Hf). reflexivity.
  - rewrite (markInviteAsUsed_absent env sec w Hf). reflexivity.
Qed.

Lemma adapter_outcome_calls env sgn w :
  (calls w <= calls (snd (adapter_outcome env sgn w)) <= S (calls w))%nat.
Proof.
  destruct (adapter_outcome_world env sgn w) as [-> | ->]; simpl; lia.
Qed.

Lemma adapter_failure_not_claimed env sgn w :
  adapter_failure env sgn w -> fst (adapter_outcome env sgn w) = Ok NOT_CLAIMED.
Proof.
  unfold adapter_failure, adapter_outcome.
  destruct (encodeFunctionData env _) as [data|e]; [|reflexivity].
  destruct (client_call env (calls w) data) as [e|d]; [reflexivity|].
  intros [Hd | [e He]].
  - rewrite Hd. reflexivity.
  - destruct (falsy d); [reflexivity|]. rewrite He. reflexivity.
Qed.

(** X7. Dispensing is fail-open. When [getNextInvite] returns an
    invite and the chain adapter, asked about its signer, either fails
    (encoding, call or decoding) or reports it not claimed,
    [GET /getInvite] answers 200 with that very invite; the table and
    the clock are as [getNextInvite] left them and at most one call
    went to the node. *)
Theorem getInvite_route_not_claimed
    (env : Env) (w w0 : World) (inv : Invite) :
  getNextInvite env w = (Ok (Some inv), w0) ->
  adapter_failure env (signer inv) w0 \/
  (exists d, oracle_reports env w0 (signer inv) d /\ claimed d = false) ->
  exists w1,
    getInvite_route env w = (Ok (mkResponse 200 (InviteJson inv)), w1) /\
    db w1 = db w0 /\ ticks w1 = ticks w0 /\
    (calls w0 <= calls w1 <= S (calls w0))%nat.
Proof.
  intros Hnext Hor.
  assert (Hst : status inv = PENDING).
  { apply (getNextInvite_some env w inv). rewrite Hnext. reflexivity. }
  assert (Hd : exists d, fst (adapter_outcome env (signer inv) w0) = Ok d /\ claimed d = false).
  { destruct Hor as [Hfail | [d [Hd Hc]]].
    - exists NOT_CLAIMED. split; [apply adapter_failure_not_claimed; exact Hfail | reflexivity].
    - exists d. unfold oracle_reports in Hd. rewrite checkInviteOnChain_outcome in Hd. auto. }
  destruct Hd as [d [Hd Hc]].
  exists (snd (adapter_outcome env (signer inv) w0)).
  destruct (adapter_outcome_db env (signer inv) w0) as [Hdb Hticks].
  pose proof (adapter_outcome_calls env (signer inv) w0) as Hcalls.
  split; [|auto].
  unfold getInvite_route. unfold try_catch at 1. unfold bind at 1.
  rewrite Hnext, Hst. cbn [status_eqb]. unfold try_catch, bind.
  rewrite checkInviteOnChain_outcome.
  destruct (adapter_outcome env (signer inv) w0) as [res w1]. cbn [fst snd] in *.
  subst res. rewrite Hc, invite_json_id. reflexivity.
Qed.

Lemma getInvite_route_not_claimed_witness :
  let env := sample_env node_down true in
  let w := world_of [invite_A PENDING] in
  exists w1,
    getInvite_route env w = (Ok (mkResponse 200 (InviteJson (invite_A PENDING))), w1) /\
    db w1 = db w /\ ticks w1 = ticks w /\ (calls w <= calls w1 <= S (calls w))%nat.
Proof.
  intros env w.
  apply (getInvite_route_not_claimed env w w (invite_A PENDING)).
  - reflexivity.
  - left. exact I.
Defined.

(** X8. [GET /getInvite] always answers, with 404 "No available
    invites" or with 200 and an invite. An invite it hands out is
    stored at that moment exactly as sent, with status [pending]; so a
    [used] invite is never handed out. At most one call goes to the
    node per request. *)
Theorem getInvite_route_answers (env : Env) (w : World) :
  exists resp w',
    getInvite_route env w = (Ok resp, w') /\
    (resp = NO_INVITES \/
     exists inv, resp = mkResponse 200 (InviteJson inv) /\
                 In inv (rows (db w')) /\ status inv = PENDING) /\
    (calls w <= calls w' <= S (calls w))%nat.
Proof.
  unfold getInvite_route. unfold try_catch at 1. unfold bind at 1.
  pose proof (getNextInvite_some env w) as Hsome.
  pose proof (getNextInvite_calls env w) as Hc0.
  destruct (getNextInvite_ok env w) as [o Ho].
  destruct (getNextInvite env w) as [res w0]. cbn [fst snd] in *. subst res.
  destruct o as [invite|].
  - destruct (Hsome invite eq_refl) as [Hin Hst]. clear Hsome.
    rewrite Hst. cbn [status_eqb]. unfold try_catch, bind.
    rewrite checkInviteOnChain_outcome.
    destruct (adapter_outcome_db env (signer invite) w0) as [Hdb _].
    pose proof (adapter_outcome_calls env (signer invite) w0) as Hc1.
    destruct (adapter_outcome_ok env (signer invite) w0) as [d Hd].
    destruct (adapter_outcome env (signer invite) w0) as [res w1].
    cbn [fst snd] in *. subst res.
    destruct (claimed d).
    + destruct (markInviteAsUsed_ok env (secret invite) w1) as [b Hb].
      pose proof (markInviteAsUsed_calls env (secret invite) w1) as Hc2.
      destruct (markInviteAsUsed env (secret invite) w1) as [mr w2].
      cbn [fst snd] in *. subst mr.
      pose proof (getNextInvite_some env w2) as Hsome2.
      pose proof (getNextInvite_calls env w2) as Hc3.
      destruct (getNextInvite_ok env w2) as [o Ho].
      destruct (getNextInvite env w2) as [nr w3]. cbn [fst snd] in *. subst nr.
      destruct o as [next|]; cbn [ret].
      * destruct (Hsome2 next eq_refl) as [Hn Hs].
        eexists. eexists. split; [reflexivity|]. split; [|lia].
        right. exists next. rewrite invite_json_id. auto.
      * eexists. eexists. split; [reflexivity|]. split; [left; reflexivity | lia].
    + cbn [ret]. eexists. eexists. split; [reflexivity|]. split; [|lia].
      right. exists invite. rewrite invite_json_id, Hdb. auto.
  - cbn [ret]. eexists. eexists. split; [reflexivity|].
    split; [left; reflexivity | lia].
Qed.

Lemma smallest_none_selected (w : World) (n : Invite) :
  table_ok (db w) ->
  In n (rows (db w)) -> status n = NONE ->
  (forall m, In m (rows (db w)) -> status m = NONE -> id n <= id m) ->
  order_by_limit1 Z.leb id (where_status NONE (rows (db w))) = Some n.
Proof.
  intros [Hids _] Hn Hst Hmin.
  destruct (order_by_limit1 Z.leb id (where_status NONE (rows (db w)))) as [n'|] eqn:Hsel.
  - pose proof (order_by_limit1_In _ _ _ _ Hsel) as Hn'.
    apply where_status_In in Hn'. destruct Hn' as [Hn' Hst'].
    assert (Hle : (id n' <=? id n) = true).
    { apply (order_by_limit1_least Z.leb id Z_leb_total Z_leb_trans _ _ Hsel).
      apply where_status_In. auto. }
    apply Z.leb_le in Hle. pose proof (Hmin n' Hn' Hst').
    f_equal. apply (same_id_same_row (rows (db w))); auto. lia.
  - apply order_by_limit1_none in Hsel.
    exfalso. apply (proj1 (where_status_nil _ _) Hsel n Hn Hst).
Qed.

(** X9. A [none] invite is reconciled in the request that dispenses it.
    When the [none] invite with the smallest id turns out to be claimed
    on chain right after [getNextInvite] has moved it to [pending],
    [GET /getInvite] marks it [used] in the same request and does not
    hand it out: the answer carries another invite or is 404. One call
    went to the node. *)
Theorem getInvite_route_claimed_none
    (env : Env) (w : World) (n : Invite) (d : ChainData) :
  table_ok (db w) ->
  In n (rows (db w)) -> status n = NONE ->
  (forall m, In m (rows (db w)) -> status m = NONE -> id n <= id m) ->
  oracle_reports env (after_update env (id n) PENDING w) (signer n) d ->
  claimed d = true ->
  exists resp w',
    getInvite_route env w = (Ok resp, w') /\
    (exists r, In r (rows (db w')) /\ id r = id n /\ secret r = secret n /\
               status r = USED) /\
    ~ dispenses resp (id n) /\
    calls w' = S (calls w).
Proof.
  intros Hok Hn Hst Hmin Hor Hcl.
  pose proof (smallest_none_selected w n Hok Hn Hst Hmin) as Hsel.
  destruct (getNextInvite_none_row env w n Hsel) as [row [Hnext [Hrow [_ [_ Hrow_eq]]]]].
  specialize (Hrow_eq (proj1 Hok)).
  set (w0 := after_update env (id n) PENDING w) in *.
  assert (Hok0 : table_ok (db w0)) by (apply table_ok_after_update; exact Hok).
  unfold oracle_reports in Hor. rewrite checkInviteOnChain_outcome in Hor.
  pose proof (adapter_claimed_world env (signer n) w0 d Hor Hcl) as Hw1.
  assert (Hf : find (fun r => String.eqb (secret r) (secret row)) (rows (db (one_more_call w0)))
               = Some row).
  { apply (find_unique secret String.eqb string_eqb_ok); [apply Hok0 | exact Hrow]. }
  set (w2 := after_update env (id row) USED (one_more_call w0)).
  assert (Hok2 : table_ok (db w2)) by (apply table_ok_after_update; exact Hok0).
  set (used := with_status USED (datetime_now env (ticks (one_more_call w0))) row).
  assert (Hused : In used (rows (db w2))) by (apply update_hit; auto).
  destruct (keeps_getNextInvite env w2 Hok2) as [Hok3 Hrows3].
  destruct (Hrows3 used Hused) as [r3 [Hr3 [Hid3 [Hsec3 [_ Hrank3]]]]].
  assert (Hst3 : status r3 = USED).
  { cbn [used with_status status rank] in Hrank3.
    destruct (status r3); simpl in Hrank3; try lia. reflexivity. }
  assert (Hrow_id : id row = id n) by (rewrite Hrow_eq; reflexivity).
  assert (Hrow_sec : secret row = secret n) by (rewrite Hrow_eq; reflexivity).
  assert (Hrow_sgn : signer row = signer n) by (rewrite Hrow_eq; reflexivity).
  assert (Hrow_st : status row = PENDING) by (rewrite Hrow_eq; reflexivity).
  pose proof (getNextInvite_some env w2) as Hsome.
  pose proof (getNextInvite_calls env w2) as Hcalls.
  destruct (getNextInvite_ok env w2) as [o Ho].
  assert (Hroute : getInvite_route env w =
            (Ok (match o with
                 | Some next => mkResponse 200 (InviteJson next)
                 | None => NO_INVITES
                 end), snd (getNextInvite env w2))).
  { unfold getInvite_route. unfold try_catch at 1. unfold bind at 1.
    rewrite Hnext, Hrow_st. cbn [status_eqb]. unfold try_catch, bind.
    rewrite checkInviteOnChain_outcome, Hrow_sgn.
    destruct (adapter_outcome env (signer n) w0) as [res w1].
    cbn [fst snd] in Hor, Hw1. subst res w1. rewrite Hcl.
    rewrite (markInviteAsUsed_found env (secret row) row (one_more_call w0) Hf).
    fold w2. destruct (getNextInvite env w2) as [nr w3]. cbn [fst snd] in *. subst nr.
    destruct o as [next|]; [rewrite invite_json_id|]; reflexivity. }
  eexists. eexists. split; [exact Hroute|]. split; [|split].
  - exists r3. split; [exact Hr3|]. split; [|split; [|exact Hst3]].
    + rewrite Hid3. exact Hrow_id.
    + rewrite Hsec3. exact Hrow_sec.
  - intros [Hc [inv [Hbody Hid]]]. destruct o as [next|]; [|discriminate Hc].
    simpl in Hbody. injection Hbody as <-.
    destruct (Hsome next Ho) as [Hin Hpend].
    assert (next = r3).
    { apply (same_id_same_row (rows (db (snd (getNextInvite env w2)))));
        [apply Hok3 | exact Hin | exact Hr3 |].
      rewrite Hid, Hid3. symmetry. exact Hrow_id. }
    subst next. congruence.
  - rewrite Hcalls. reflexivity.
Qed.

Lemma getInvite_route_claimed_none_witness :
  let env := sample_env node_up true in
  let w := world_of [invite_A USED; invite_B NONE] in
  exists resp w',
    getInvite_route env w = (Ok resp, w') /\
    (exists r, In r (rows (db w')) /\ id r = 2 /\ secret r = "cafe" /\ status r = USED) /\
    ~ dispenses resp 2 /\
    calls w' = 1%nat.
Proof.
  intros env w.
  apply (getInvite_route_claimed_none env w (invite_B NONE)
           (mkChainData "0x00000000000000000000000000000000000000aa" true)).
  - apply table_ok_two.
  - right; left; reflexivity.
  - reflexivity.
  - intros m [<-|[<-|[]]]; simpl; intros; [discriminate | lia].
  - reflexivity.
  - reflexivity.
Defined.

(** * The rest of [POST /checkInvite] *)

(** X10. [POST /checkInvite] answers 400 when the secret or the
    address is missing or empty (the secret is looked at first) and 404
    "Invite not found" when no stored invite has the secret. In all
    three cases nothing is written and no call goes to the node. *)
Theorem checkInvite_route_rejects (env : Env) (sec addr : option string) (w : World) :
  (falsy sec = true ->
   checkInvite_route env sec addr w =
   (Ok (mkResponse 400 (ErrorJson "Secret is required to verify the invite")), w)) /\
  (falsy sec = false -> falsy addr = true ->
   checkInvite_route env sec addr w =
   (Ok (mkResponse 400 (ErrorJson "Signer address is required")), w)) /\
  (falsy sec = false -> falsy addr = false ->
   (forall r, In r (rows (db w)) -> secret r <> js_string sec) ->
   checkInvite_route env sec addr w =
   (Ok (mkResponse 404 (ErrorJson "Invite not found")), w)).
Proof.
  split; [|split].
  - intros Hs. unfold checkInvite_route. rewrite Hs. reflexivity.
  - intros Hs Ha. unfold checkInvite_route. rewrite Hs, Ha. reflexivity.
  - intros Hs Ha Habs. apply checkInvite_route_absent; auto.
    apply find_absent. intros y Hy. apply String.eqb_neq. apply Habs. exact Hy.
Qed.

Lemma checkInvite_route_rejects_witness :
  let env := sample_env node_up true in
  let w := world_of [invite_A PENDING] in
  checkInvite_route env (Some "") (Some "0xabc") w =
    (Ok (mkResponse 400 (ErrorJson "Secret is required to verify the invite")), w) /\
  checkInvite_route env (Some "deadbeef") None w =
    (Ok (mkResponse 400 (ErrorJson "Signer address is required")), w) /\
  checkInvite_route env (Some "beef") (Some "0xabc") w =
    (Ok (mkResponse 404 (ErrorJson "Invite not found")), w).
Proof.
  intros env w. split; [|split].
  - apply (proj1 (checkInvite_route_rejects env (Some "") (Some "0xabc") w)). reflexivity.
  - apply (proj1 (proj2 (checkInvite_route_rejects env (Some "deadbeef") None w)));
      reflexivity.
  - apply (proj2 (proj2 (checkInvite_route_rejects env (Some "beef") (Some "0xabc") w)));
      try reflexivity.
    intros r [<-|[]]. discriminate.
Defined.



(** * The rest of [POST /addInvite] *)

Lemma falsy_some_nonempty (s : string) : s <> "" -> falsy (Some s) = false.
Proof. destruct s; [intros H; destruct (H eq_refl) | reflexivity]. Qed.

Lemma falsy_false_some (k : option string) :
  falsy k = false -> k = Some (js_string k).
Proof. destruct k as [s|]; [reflexivity | discriminate]. Qed.

Lemma API_KEY_nonempty env : API_KEY env <> "".
Proof.
  unfold API_KEY. destruct (falsy (process_env_API_KEY env)) eqn:E; [discriminate|].
  apply falsy_false_nonempty. exact E.
Qed.

(** X12. [authMiddleware] lets a request through exactly when its
    [x-api-key] header is the configured key, which is never empty:
    with [API_KEY] unset or empty in the environment the key is the
    built-in "your-secret-api-key". Any other request to the guarded
    [POST /addInvite] gets 401 "Unauthorized", whatever its body, and
    nothing is read or written. *)
Theorem authMiddleware_gate (env : Env) (k : option string) :
  (authorized env k = true <-> k = Some (API_KEY env)) /\
  API_KEY env <> "" /\
  (falsy (process_env_API_KEY env) = true -> API_KEY env = "your-secret-api-key") /\
  (forall s, s <> "" -> process_env_API_KEY env = Some s -> API_KEY env = s) /\
  (authorized env k = false ->
   forall sec sgn w,
     addInvite_route_auth env k sec sgn w =
     (Ok (mkResponse 401 (ErrorJson "Unauthorized")), w)).
Proof.
  split; [|split; [apply API_KEY_nonempty|split; [|split]]].
  - unfold authorized. split.
    + intros H. apply negb_true_iff in H. apply orb_false_iff in H.
      destruct H as [Hk He]. apply negb_false_iff in He. apply String.eqb_eq in He.
      rewrite (falsy_false_some k Hk). f_equal. exact He.
    + intros ->. cbn [js_string].
      rewrite (falsy_some_nonempty _ (API_KEY_nonempty env)), String.eqb_refl.
      reflexivity.
  - intros H. unfold API_KEY. rewrite H. reflexivity.
  - intros s Hs E. unfold API_KEY. rewrite E.
    rewrite (falsy_some_nonempty s Hs). reflexivity.
  - intros H sec sgn w. unfold addInvite_route_auth. rewrite H. reflexivity.
Qed.

Lemma authMiddleware_gate_witness :
  let env := sample_env node_up false in
  authorized env (Some "your-secret-api-key") = true /\
  addInvite_route_auth env (Some "guess") (Some "deadbeef") (Some "0xa1") boot =
  (Ok (mkResponse 401 (ErrorJson "Unauthorized")), boot).
Proof.
  intros env. split.
  - apply (proj1 (authMiddleware_gate env (Some "your-secret-api-key"))).
    reflexivity.
  - apply (proj2 (proj2 (proj2 (proj2 (authMiddleware_gate env (Some "guess")))))).
    reflexivity.
Defined.

(** X13. Behind the API key, [POST /addInvite] answers 400 when the
    secret is missing, the signer is missing, or the secret is not a
    hex string (checked in this order), without touching the table;
    otherwise, with a secret not yet stored, it inserts the invite and
    answers 201 with it: status [none], a fresh id, and the signer as
    given, which is not checked to be an address. *)
Theorem addInvite_route_auth_creates
    (env : Env) (k sec sgn : option string) (w : World) :
  authorized env k = true ->
  (falsy sec = true ->
   addInvite_route_auth env k sec sgn w =
   (Ok (mkResponse 400 (ErrorJson "Secret is required")), w)) /\
  (falsy sec = false -> falsy sgn = true ->
   addInvite_route_auth env k sec sgn w =
   (Ok (mkResponse 400 (ErrorJson "Signer is required")), w)) /\
  (falsy sec = false -> falsy sgn = false ->
   hex_string_re (js_string sec) = false ->
   addInvite_route_auth env k sec sgn w =
   (Ok (mkResponse 400 (ErrorJson "Secret must be a valid hex string")), w)) /\
  (falsy sec = false -> falsy sgn = false ->
   hex_string_re (js_string sec) = true ->
   (forall r, In r (rows (db w)) -> secret r <> js_string sec) ->
   addInvite_route_auth env k sec sgn w =
   (Ok (mkResponse 201 (InviteJson (new_invite env (js_string sec) (js_string sgn) w))),
    after_insert env (js_string sec) (js_string sgn) w)).
Proof.
  intros Hk. unfold addInvite_route_auth. rewrite Hk. cbn [negb].
  split; [|split; [|split]].
  - intros Hs. rewrite Hs. reflexivity.
  - intros Hs Hg. rewrite Hs, Hg. reflexivity.
  - intros Hs Hg Hh. rewrite Hs, Hg, Hh. reflexivity.
  - intros Hs Hg Hh Hfresh. rewrite Hs, Hg, Hh. cbn [negb].
    unfold try_catch, bind.
    rewrite (addInvite_fresh_eq env _ _ w (secret_absent _ _ Hfresh)).
    rewrite invite_json_id. reflexivity.
Qed.

Lemma addInvite_route_auth_creates_witness :
  let env := sample_env node_up false in
  let k := Some "your-secret-api-key" in
  addInvite_route_auth env k (Some "0xBEEF") (Some "not an address") boot =
  (Ok (mkResponse 201
         (InviteJson (mkInvite 1 "0xBEEF" "not an address" NONE "2024-01-01 00:00:00"))),
   after_insert env "0xBEEF" "not an address" boot).
Proof.
  intros env k.
  apply (proj2 (proj2 (proj2
           (addInvite_route_auth_creates env k (Some "0xBEEF") (Some "not an address")
              boot eq_refl)))); try reflexivity.
  intros r [].
Defined.

Lemma adapter_bound_world env sgn w d :
  fst (adapter_outcome env sgn w) = Ok d -> account d <> ZERO_ADDRESS ->
  snd (adapter_outcome env sgn w) = one_more_call w.
Proof.
  unfold adapter_outcome.
  destruct (encodeFunctionData env _) as [data|e].
  - intros _ _.
    destruct (client_call env (calls w) data) as [e|o]; [reflexivity|].
    destruct (falsy o); [reflexivity|].
    destruct (decodeAbiParameters env (js_string o)); reflexivity.
  - simpl. intros E Hne. injection E as <-. destruct (Hne eq_refl).
Qed.

(** X14. The open [POST /addInvite] changes the table only when the
    request got past every check: both fields present, the secret a hex
    string, the address 40 hex digits, the secret matching the address,
    the adapter reporting for the address an account other than the
    zero address that is not claimed, and the secret not stored yet. *)
Theorem addInvite_route_inserts_only_checked
    (env : Env) (sec addr : option string) (w : World) :
  db (snd (addInvite_route env sec addr w)) <> db w ->
  falsy sec = false /\ falsy addr = false /\
  hex_string_re (js_string sec) = true /\
  address_re (js_string addr) = true /\
  verifySecretMatchesAddress env (js_string sec) (js_string addr) = Ok true /\
  (exists d, oracle_reports env w (js_string addr) d /\
             account d <> ZERO_ADDRESS /\ claimed d = false) /\
  (forall r, In r (rows (db w)) -> secret r <> js_string sec).
Proof.
  unfold addInvite_route, try_catch.
  destruct (falsy sec) eqn:Hs; [intros H; destruct (H eq_refl)|].
  destruct (falsy addr) eqn:Ha; [intros H; destruct (H eq_refl)|].
  destruct (hex_string_re (js_string sec)) eqn:Hh; [|intros H; destruct (H eq_refl)].
  destruct (address_re (js_string addr)) eqn:Hr; [|intros H; destruct (H eq_refl)].
  cbn [negb]. unfold bind at 1. unfold lift.
  destruct (verifySecretMatchesAddress env (js_string sec) (js_string addr))
    as [[|]|e] eqn:Hv; cbn [negb].
  - unfold bind at 1. rewrite checkInviteOnChain_outcome.
    destruct (adapter_outcome_db env (js_string addr) w) as [Hdb _].
    destruct (adapter_outcome env (js_string addr) w) as [[d|e] w1] eqn:Hout;
      cbn [fst snd] in Hdb.
    + destruct (String.eqb (account d) ZERO_ADDRESS) eqn:Hacc;
        [intros H; destruct (H Hdb)|].
      destruct (claimed d) eqn:Hcl; [intros H; destruct (H Hdb)|].
      destruct (existsb (fun r => String.eqb (secret r) (js_string sec)) (rows (db w1)))
        eqn:E.
      * unfold bind. rewrite (addInvite_duplicate_eq env _ _ w1 E).
        unfold addInvite_catch. cbn [message UNIQUE_FAILED].
        destruct (includes _ _); intros H; destruct (H Hdb).
      * intros _. repeat (split; [reflexivity|]). split.
        -- exists d. unfold oracle_reports.
           rewrite checkInviteOnChain_outcome, Hout. cbn [fst].
           split; [reflexivity|]. split; [|exact Hcl].
           apply String.eqb_neq. exact Hacc.
        -- rewrite Hdb in E. intros r Hin Heq.
           pose proof (secret_present _ _ Hin) as Hp. rewrite Heq in Hp. congruence.
    + intros H. unfold addInvite_catch in H.
      destruct (includes _ _); destruct (H Hdb).
  - intros H; destruct (H eq_refl).
  - unfold addInvite_catch. destruct (includes _ _); intros H; destruct (H eq_refl).
Qed.

Lemma addInvite_route_inserts_only_checked_witness :
  let env := sample_env node_up false in
  let addr := Some "0x00000000000000000000000000000000000000a1" in
  db (snd (addInvite_route env (Some "deadbeef") addr boot)) <> db boot /\
  address_re (js_string addr) = true /\
  verifySecretMatchesAddress env "deadbeef" (js_string addr) = Ok true.
Proof.
  intros env addr.
  assert (H : db (snd (addInvite_route env (Some "deadbeef") addr boot)) <> db boot)
    by discriminate.
  split; [exact H|].
  destruct (addInvite_route_inserts_only_checked env (Some "deadbeef") addr boot H)
    as [_ [_ [_ [Hre [Hver _]]]]].
  split; [exact Hre | exact Hver].
Defined.

(** X15. Issuing is fail-closed. When the request passes the field
    checks and the secret matches the address but the chain adapter
    fails (encoding, call or decoding), the open [POST /addInvite]
    answers 400 "Address does not exist on the contract" and inserts
    nothing, because the adapter then reports the zero address. *)
Theorem addInvite_route_adapter_failure
    (env : Env) (sec addr : option string) (w : World) :
  falsy sec = false -> falsy addr = false ->
  hex_string_re (js_string sec) = true ->
  address_re (js_string addr) = true ->
  verifySecretMatchesAddress env (js_string sec) (js_string addr) = Ok true ->
  adapter_failure env (js_string addr) w ->
  fst (addInvite_route env sec addr w) =
    Ok (mkResponse 400 (ErrorJson "Address does not exist on the contract")) /\
  db (snd (addInvite_route env sec addr w)) = db w.
Proof.
  intros Hs Ha Hh Hr Hv Hfail.
  assert (H : addInvite_route env sec addr w =
              (Ok (mkResponse 400 (ErrorJson "Address does not exist on the contract")),
               snd (adapter_outcome env (js_string addr) w))).
  { unfold addInvite_route, try_catch. rewrite Hs, Ha, Hh, Hr. cbn [negb].
    unfold bind at 1. unfold lift. rewrite Hv. cbn [negb].
    unfold bind. rewrite checkInviteOnChain_outcome.
    pose proof (adapter_failure_not_claimed env (js_string addr) w Hfail) as Hout.
    destruct (adapter_outcome env (js_string addr) w) as [res w1].
    cbn [fst snd] in *. subst res. reflexivity. }
  rewrite H. split; [reflexivity | apply adapter_outcome_db].
Qed.

Lemma addInvite_route_adapter_failure_witness :
  let env := sample_env node_down false in
  fst (addInvite_route env (Some "deadbeef")
         (Some "0x00000000000000000000000000000000000000a1") boot) =
  Ok (mkResponse 400 (ErrorJson "Address does not exist on the contract")).
Proof.
  intros env.
  apply (addInvite_route_adapter_failure env (Some "deadbeef")
           (Some "0x00000000000000000000000000000000000000a1") boot);
    first [reflexivity | exact I].
Defined.

(** X16. When every check passes and the secret is not stored yet, the
    open [POST /addInvite] sends one call to the node, inserts the
    invite with the request's address as its signer, and answers 201
    with it: status [none] and an id above every stored id. *)
Theorem addInvite_route_creates
    (env : Env) (sec addr : option string) (w : World) (d : ChainData) :
  falsy sec = false -> falsy addr = false ->
  hex_string_re (js_string sec) = true ->
  address_re (js_string addr) = true ->
  verifySecretMatchesAddress env (js_string sec) (js_string addr) = Ok true ->
  oracle_reports env w (js_string addr) d ->
  account d <> ZERO_ADDRESS -> claimed d = false ->
  (forall r, In r (rows (db w)) -> secret r <> js_string sec) ->
  let inv := new_invite env (js_string sec) (js_string addr) w in
  addInvite_route env sec addr w =
    (Ok (mkResponse 201 (InviteJson inv)),
     after_insert env (js_string sec) (js_string addr) (one_more_call w)) /\
  status inv = NONE /\ signer inv = js_string addr /\
  (forall r, In r (rows (db w)) -> id r < id inv).
Proof.
  intros Hs Ha Hh Hr Hv Hor Hacc Hcl Hfresh inv.
  split; [|split; [reflexivity | split; [reflexivity|]]].
  - unfold addInvite_route, try_catch. rewrite Hs, Ha, Hh, Hr. cbn [negb].
    unfold bind at 1. unfold lift. rewrite Hv. cbn [negb].
    unfold bind at 1. rewrite checkInviteOnChain_outcome.
    unfold oracle_reports in Hor. rewrite checkInviteOnChain_outcome in Hor.
    pose proof (adapter_bound_world env (js_string addr) w d Hor Hacc) as Hw.
    destruct (adapter_outcome env (js_string addr) w) as [res w1].
    cbn [fst snd] in *. subst res w1.
    apply String.eqb_neq in Hacc. rewrite Hacc, Hcl.
    unfold bind.
    rewrite (addInvite_fresh_eq env _ _ (one_more_call w) (secret_absent _ _ Hfresh)).
    rewrite invite_json_id. reflexivity.
  - intros r Hr'. apply new_invite_above. exact Hr'.
Qed.

Lemma addInvite_route_creates_witness :
  let env := sample_env node_up false in
  fst (addInvite_route env (Some "deadbeef")
         (Some "0x00000000000000000000000000000000000000a1") boot) =
  Ok (mkResponse 201
        (InviteJson (mkInvite 1 "deadbeef" "0x00000000000000000000000000000000000000a1"
                              NONE "2024-01-01 00:00:00"))).
Proof.
  intros env.
  destruct (addInvite_route_creates env (Some "deadbeef")
              (Some "0x00000000000000000000000000000000000000a1") boot
              (mkChainData "0x00000000000000000000000000000000000000aa" false))
    as [H _];
    [ reflexivity | reflexivity | reflexivity | reflexivity | reflexivity
    | reflexivity | discriminate | reflexivity | intros r [] | ].
  rewrite H. reflexivity.
Defined.

(** * The rest of the chain adapter *)

(** X17. [checkInviteOnChain] reports [claimed = true], or an account
    other than the zero address, only when the address was encoded,
    the node returned non-empty data and that data decoded to such a
    value; no failure is ever turned into "claimed". *)
Theorem checkInviteOnChain_claimed_only_if_decoded
    (env : Env) (sgn : string) (w : World) (d : ChainData) :
  oracle_reports env w sgn d ->
  claimed d = true \/ account d <> ZERO_ADDRESS ->
  exists data raw c,
    encodeFunctionData env (signerAddress_of sgn) = Ok data /\
    client_call env (calls w) data = CallReturns (Some raw) /\
    raw <> "" /\
    decodeAbiParameters env raw = Ok c /\
    account d = account c /\ claimed d = claimed c /\
    snd (checkInviteOnChain env sgn w) = one_more_call w.
Proof.
  unfold oracle_reports. rewrite checkInviteOnChain_outcome. unfold adapter_outcome.
  assert (Hno : ~ (claimed NOT_CLAIMED = true \/ account NOT_CLAIMED <> ZERO_ADDRESS)).
  { intros [H|H]; [discriminate H | apply H; reflexivity]. }
  destruct (encodeFunctionData env (signerAddress_of sgn)) as [data|e] eqn:Henc;
    [|cbn [fst]; intros E H; injection E as <-; destruct (Hno H)].
  destruct (client_call env (calls w) data) as [e|[raw|]] eqn:Hcall;
    [cbn [fst]; intros E H; injection E as <-; destruct (Hno H) | |
     cbn [fst falsy]; intros E H; injection E as <-; destruct (Hno H)].
  destruct raw as [|ch raw];
    [cbn [fst falsy]; intros E H; injection E as <-; destruct (Hno H)|].
  cbn [falsy js_string].
  destruct (decodeAbiParameters env (String ch raw)) as [c|e] eqn:Hdec;
    [|cbn [fst]; intros E H; injection E as <-; destruct (Hno H)].
  cbn [fst snd]. intros E _. injection E as <-.
  exists data, (String ch raw), c. cbn [account claimed].
  split; [reflexivity|]. split; [exact Hcall|]. split; [discriminate|].
  split; [exact Hdec|]. split; [reflexivity|]. split; reflexivity.
Qed.

Lemma checkInviteOnChain_claimed_only_if_decoded_witness :
  exists data raw c,
    encodeFunctionData (sample_env node_up true) (signerAddress_of "a1") = Ok data /\
    client_call (sample_env node_up true) (calls boot) data = CallReturns (Some raw) /\
    raw <> "" /\
    decodeAbiParameters (sample_env node_up true) raw = Ok c /\
    "0x00000000000000000000000000000000000000aa" = account c /\ true = claimed c /\
    snd (checkInviteOnChain (sample_env node_up true) "a1" boot) = one_more_call boot.
Proof.
  apply (checkInviteOnChain_claimed_only_if_decoded (sample_env node_up true) "a1" boot
           (mkChainData "0x00000000000000000000000000000000000000aa" true)).
  - reflexivity.
  - left. reflexivity.
Defined.

(** X18. When the address encodes, the node returns non-empty data and
    the data decodes, [checkInviteOnChain] returns the decoded account
    and flag after exactly one call. In every case it leaves the table
    and the clock alone and sends at most one call; it sends none
    exactly when encoding throws. *)
Theorem checkInviteOnChain_effects (env : Env) (sgn : string) (w : World) :
  let w' := snd (checkInviteOnChain env sgn w) in
  db w' = db w /\ ticks w' = ticks w /\
  (calls w' = calls w \/ calls w' = S (calls w)) /\
  (calls w' = calls w <-> exists e, encodeFunctionData env (signerAddress_of sgn) = Throw e) /\
  (forall data raw c,
      encodeFunctionData env (signerAddress_of sgn) = Ok data ->
      client_call env (calls w) data = CallReturns (Some raw) ->
      raw <> "" ->
      decodeAbiParameters env raw = Ok c ->
      checkInviteOnChain env sgn w = (Ok c, one_more_call w)).
Proof.
  intros w'. unfold w'. rewrite checkInviteOnChain_outcome.
  destruct (adapter_outcome_db env sgn w) as [Hdb Hticks].
  split; [exact Hdb|]. split; [exact Hticks|]. split; [|split].
  - destruct (adapter_outcome_world env sgn w) as [-> | ->]; [left | right]; reflexivity.
  - unfold adapter_outcome.
    destruct (encodeFunctionData env (signerAddress_of sgn)) as [data|e].
    + split; [|intros [e He]; discriminate He].
      assert (Hw : forall r, r = one_more_call w -> calls r = calls w -> False)
        by (intros r -> H; simpl in H; lia).
      destruct (client_call env (calls w) data) as [e|o];
        [intros H; destruct (Hw _ eq_refl H)|].
      destruct (falsy o); [intros H; destruct (Hw _ eq_refl H)|].
      destruct (decodeAbiParameters env (js_string o));
        intros H; destruct (Hw _ eq_refl H).
    + split; [intros _; exists e; reflexivity | reflexivity].
  - intros data raw c Henc Hcall Hraw Hdec. unfold adapter_outcome.
    rewrite Henc, Hcall. rewrite (falsy_some_nonempty raw Hraw).
    cbn [js_string]. rewrite Hdec. destruct c; reflexivity.
Qed.

Lemma checkInviteOnChain_effects_witness :
  checkInviteOnChain (sample_env node_up true) "0xa1" boot =
  (Ok (mkChainData "0x00000000000000000000000000000000000000aa" true),
   one_more_call boot).
Proof.
  apply (proj2 (proj2 (proj2 (proj2
           (checkInviteOnChain_effects (sample_env node_up true) "0xa1" boot))))
           "0xa1" "0x01");
    first [reflexivity | discriminate].
Defined.

(** ** The address handed to the encoder *)

Lemma hex_digit_not_x (c : ascii) :
  is_hex_digit c = true -> lower_ascii c <> "x"%char.
Proof.
  destruct c as [[] [] [] [] [] [] [] []]; vm_compute; intros H E;
    first [discriminate H | discriminate E].
Qed.

Lemma strip_0x_some (a r : string) :
  strip_0x a = Some r -> a = String "0" (String "x" r).
Proof.
  destruct a as [|c0 [|c1 t]]; simpl.
  - discriminate.
  - destruct c0 as [[] [] [] [] [] [] [] []]; discriminate.
  - destruct c0 as [[] [] [] [] [] [] [] []]; try discriminate.
    destruct c1 as [[] [] [] [] [] [] [] []]; try discriminate.
    intros E. injection E as <-. reflexivity.
Qed.

Lemma plain_not_prefixed (a : string) :
  Nat.eqb (String.length a) 40 && all_hex a = true ->
  startsWith (toLowerCase a) "0x" = false.
Proof.
  intros H. apply andb_prop in H. destruct H as [_ Hhex].
  destruct a as [|c0 [|c1 t]]; [reflexivity | |].
  - unfold startsWith. cbn [toLowerCase String.prefix].
    destruct (ascii_dec "0" (lower_ascii c0)); reflexivity.
  - cbn [all_hex] in Hhex. apply andb_prop in Hhex. destruct Hhex as [_ Hhex].
    apply andb_prop in Hhex. destruct Hhex as [H1 _].
    unfold startsWith. cbn [toLowerCase String.prefix].
    destruct (ascii_dec "0" (lower_ascii c0)); [|reflexivity].
    destruct (ascii_dec "x" (lower_ascii c1)) as [E|]; [|reflexivity].
    exfalso. apply (hex_digit_not_x c1 H1). symmetry. exact E.
Qed.

(** X19. The address [checkInviteOnChain] hands to the encoder is the
    given text when that starts with "0x" in either case, and "0x"
    followed by the text otherwise; letters are never re-cased, and
    applying the rule twice changes nothing. For every address that the
    open [POST /addInvite] accepts (40 hex digits, with or without
    "0x"), the encoder receives "0x" followed by those 40 digits. *)
Theorem signerAddress_of_prefixed (sgn : string) :
  startsWith (toLowerCase (signerAddress_of sgn)) "0x" = true /\
  signerAddress_of (signerAddress_of sgn) = signerAddress_of sgn /\
  (startsWith (toLowerCase sgn) "0x" = true -> signerAddress_of sgn = sgn) /\
  (startsWith (toLowerCase sgn) "0x" = false -> signerAddress_of sgn = "0x" ++ sgn) /\
  (address_re sgn = true ->
   exists digits,
     signerAddress_of sgn = "0x" ++ digits /\
     String.length digits = 40%nat /\ all_hex digits = true /\
     (sgn = digits \/ sgn = "0x" ++ digits)).
Proof.
  assert (Hp : startsWith (toLowerCase (signerAddress_of sgn)) "0x" = true).
  { unfold signerAddress_of.
    destruct (startsWith (toLowerCase sgn) "0x") eqn:E; [exact E|].
    unfold startsWith. simpl. destruct (toLowerCase sgn); reflexivity. }
  split; [exact Hp|]. split; [|split; [|split]].
  - unfold signerAddress_of at 1. rewrite Hp. reflexivity.
  - intros E. unfold signerAddress_of. rewrite E. reflexivity.
  - intros E. unfold signerAddress_of. rewrite E. reflexivity.
  - unfold address_re. intros H. apply orb_prop in H. destruct H as [H|H].
    + exists sgn. unfold signerAddress_of. rewrite (plain_not_prefixed sgn H).
      apply andb_prop in H. destruct H as [Hlen Hhex].
      apply Nat.eqb_eq in Hlen.
      split; [reflexivity|]. split; [exact Hlen|]. split; [exact Hhex|].
      left. reflexivity.
    + destruct (strip_0x sgn) as [r|] eqn:Hr; [|discriminate H].
      apply strip_0x_some in Hr. subst sgn. exists r.
      apply andb_prop in H. destruct H as [Hlen Hhex].
      apply Nat.eqb_eq in Hlen.
      split; [|split; [exact Hlen|split; [exact Hhex|right; reflexivity]]].
      unfold signerAddress_of, startsWith. simpl.
      destruct (toLowerCase r); reflexivity.
Qed.

Lemma signerAddress_of_prefixed_witness :
  exists digits,
    signerAddress_of "00000000000000000000000000000000000000A1" = "0x" ++ digits /\
    String.length digits = 40%nat /\ all_hex digits = true /\
    ("00000000000000000000000000000000000000A1" = digits \/
     "00000000000000000000000000000000000000A1" = "0x" ++ digits).
Proof.
  apply (proj2 (proj2 (proj2 (proj2
           (signerAddress_of_prefixed "00000000000000000000000000000000000000A1"))))).
  reflexivity.
Defined.

(** * Statistics along the operations *)

Lemma count_cons st (a : Invite) (l : list Invite) :
  count_rows (where_status st (a :: l)) =
  (if status_eqb (status a) st then 1 else 0) + count_rows (where_status st l).
Proof.
  unfold count_rows, where_status. cbn [filter].
  destruct (status_eqb (status a) st); cbn [List.length]; lia.
Qed.

Lemma count_app st (l1 l2 : list Invite) :
  count_rows (where_status st (l1 ++ l2)) =
  count_rows (where_status st l1) + count_rows (where_status st l2).
Proof.
  unfold count_rows, where_status. rewrite filter_app, length_app. lia.
Qed.

Lemma count_update (l : list Invite) (r : Invite) (st' : InviteStatus) (d : string)
    (st : InviteStatus) :
  NoDup (map id l) -> In r l ->
  count_rows (where_status st (update_where_id (id r) st' d l)) =
  count_rows (where_status st l)
  - (if status_eqb (status r) st then 1 else 0)
  + (if status_eqb st' st then 1 else 0).
Proof.
  induction l as [|x t IH]; intros Hnd Hin; [destruct Hin|].
  cbn [map] in Hnd. inversion Hnd as [|? ? Hx Ht]; subst.
  destruct Hin as [->|Hin].
  - assert (Ht' : update_where_id (id r) st' d t = t).
    { apply update_absent. intros y Hy E. apply Hx. rewrite <- E.
      apply in_map. exact Hy. }
    unfold update_where_id in *. cbn [map]. rewrite Z.eqb_refl, Ht'.
    rewrite !count_cons. cbn [with_status status]. lia.
  - assert (Hne : id x <> id r).
    { intros E. apply Hx. rewrite E. apply in_map. exact Hin. }
    specialize (IH Ht Hin).
    unfold update_where_id in *. cbn [map].
    rewrite (proj2 (Z.eqb_neq _ _) Hne). rewrite !count_cons. lia.
Qed.

Lemma getInviteStats_eq w :
  getInviteStats w =
  (Ok (mkStats (count_rows (rows (db w)))
               (count_rows (where_status USED (rows (db w))))
               (count_rows (where_status PENDING (rows (db w))))
               (count_rows (rows (db w))
                - count_rows (where_status USED (rows (db w)))
                - count_rows (where_status PENDING (rows (db w))))), w).
Proof. reflexivity. Qed.

(** X20. The statistics follow the operations. On a table that meets
    its key constraints: adding an invite with a new secret raises
    [total] and [available] by one; a [getNextInvite] that finds a
    [none] invite moves one from [available] to [pending]; marking a
    stored [pending] invite used moves one from [pending] to [used],
    and marking a stored [none] invite used moves one from [available]
    to [used]. Every other count stays as it was. *)
Theorem stats_follow_operations (env : Env) (w : World) (s : Stats) :
  table_ok (db w) ->
  fst (getInviteStats w) = Ok s ->
  (forall sec sgn,
      (forall r, In r (rows (db w)) -> secret r <> sec) ->
      fst (getInviteStats (snd (addInvite env sec sgn w))) =
      Ok (mkStats (total s + 1) (used s) (pending s) (available s + 1))) /\
  ((exists r, In r (rows (db w)) /\ status r = NONE) ->
   fst (getInviteStats (snd (getNextInvite env w))) =
   Ok (mkStats (total s) (used s) (pending s + 1) (available s - 1))) /\
  (forall r, In r (rows (db w)) -> status r = PENDING ->
     fst (getInviteStats (snd (markInviteAsUsed env (secret r) w))) =
     Ok (mkStats (total s) (used s + 1) (pending s - 1) (available s))) /\
  (forall r, In r (rows (db w)) -> status r = NONE ->
     fst (getInviteStats (snd (markInviteAsUsed env (secret r) w))) =
     Ok (mkStats (total s) (used s + 1) (pending s) (available s - 1))).
Proof.
  intros Hok Hs. rewrite getInviteStats_eq in Hs. cbn [fst] in Hs.
  injection Hs as <-. cbn [total used pending available].
  assert (Hlen : forall i st d,
            count_rows (update_where_id i st d (rows (db w))) = count_rows (rows (db w))).
  { intros i st d. unfold count_rows. rewrite update_length. reflexivity. }
  assert (Hmark : forall r, In r (rows (db w)) ->
            snd (markInviteAsUsed env (secret r) w) = after_update env (id r) USED w).
  { intros r Hr. destruct (lookups_by_key_aux w Hok r Hr) as [_ Hf].
    rewrite getInviteBySecret_eq in Hf. injection Hf as Hf.
    rewrite (markInviteAsUsed_found env (secret r) r w Hf). reflexivity. }
  destruct Hok as [Hids Hsecs].
  split; [|split; [|split]].
  - intros sec sgn Hfresh.
    rewrite (addInvite_fresh_eq env sec sgn w (secret_absent _ _ Hfresh)).
    rewrite getInviteStats_eq. cbn [fst snd after_insert db rows].
    rewrite !count_app. unfold count_rows at 2 5.
    unfold count_rows, where_status. rewrite !length_app.
    cbn [filter new_invite status status_eqb List.length]. f_equal. f_equal; lia.
  - intros [r [Hr Hst]].
    destruct (order_by_limit1 Z.leb id (where_status NONE (rows (db w)))) as [n|] eqn:Hsel.
    + destruct (getNextInvite_none_row env w n Hsel) as [row [-> _]].
      pose proof (order_by_limit1_In _ _ _ _ Hsel) as Hn.
      apply where_status_In in Hn. destruct Hn as [Hn Hstn].
      rewrite getInviteStats_eq. cbn [fst snd after_update db rows].
      rewrite Hlen, !(count_update _ n PENDING _ _ Hids Hn), Hstn.
      cbn [status_eqb]. f_equal. f_equal; lia.
    + apply order_by_limit1_none in Hsel.
      exfalso. apply (proj1 (where_status_nil _ _) Hsel r Hr Hst).
  - intros r Hr Hst. rewrite (Hmark r Hr).
    rewrite getInviteStats_eq. cbn [fst snd after_update db rows].
    rewrite Hlen, !(count_update _ r USED _ _ Hids Hr), Hst.
    cbn [status_eqb]. f_equal. f_equal; lia.
  - intros r Hr Hst. rewrite (Hmark r Hr).
    rewrite getInviteStats_eq. cbn [fst snd after_update db rows].
    rewrite Hlen, !(count_update _ r USED _ _ Hids Hr), Hst.
    cbn [status_eqb]. f_equal. f_equal; lia.
Qed.

Lemma stats_follow_operations_witness :
  let env := sample_env node_up false in
  let w := world_of [invite_A PENDING; invite_B NONE] in
  fst (getInviteStats w) = Ok (mkStats 2 0 1 1) /\
  fst (getInviteStats (snd (getNextInvite env w))) = Ok (mkStats 2 0 2 0) /\
  fst (getInviteStats (snd (markInviteAsUsed env "deadbeef" w))) = Ok (mkStats 2 1 0 1).
Proof.
  intros env w.
  destruct (stats_follow_operations env w (mkStats 2 0 1 1)
              (table_ok_two PENDING NONE) eq_refl) as [_ [H2 [H3 _]]].
  split; [reflexivity|]. split.
  - apply H2. exists (invite_B NONE). split; [right; left; reflexivity | reflexivity].
  - apply (H3 (invite_A PENDING)); [left; reflexivity | reflexivity].
Defined.

(** * Every request is answered *)

Lemma try_catch_answers {A} (m : M A) (h : Error -> M A) :
  (forall e w, exists r, fst (h e w) = Ok r) ->
  forall w, exists r, fst (try_catch m h w) = Ok r.
Proof.
  intros Hh w. unfold try_catch.
  destruct (m w) as [[a|e] w1]; [exists a; reflexivity | apply Hh].
Qed.

Lemma addInvite_catch_answers e w : exists r, fst (addInvite_catch e w) = Ok r.
Proof. unfold addInvite_catch. destruct (includes _ _); eexists; reflexivity. Qed.

Lemma handle_answers env q w : exists resp, fst (handle env q w) = Ok resp.
Proof.
  destruct q; cbn [handle].
  - apply try_catch_answers. apply addInvite_catch_answers.
  - unfold addInvite_route_auth. destruct (negb (authorized env apiKey)).
    + eexists; reflexivity.
    + apply try_catch_answers. apply addInvite_catch_answers.
  - apply try_catch_answers. intros e w0. eexists; reflexivity.
  - apply try_catch_answers. intros e w0. eexists; reflexivity.
  - eexists; reflexivity.
Qed.

Ltac known_code :=
  cbv [status_codes code In]; repeat first [left; reflexivity | right].

Ltac codes_walk :=
  repeat first
    [ apply answers_ret; known_code
    | apply answers_bind; intro
    | apply answers_try_catch; [|intro]
    | match goal with
      | |- answers _ (if ?b then _ else _) => destruct b
      | |- answers _ (match ?x with _ => _ end) => destruct x
      end ].

Lemma handle_codes env q :
  answers (fun resp => In (code resp) status_codes) (handle env q).
Proof.
  destruct q; cbn [handle].
  - unfold addInvite_route, addInvite_catch. codes_walk.
  - unfold addInvite_route_auth, addInvite_catch. codes_walk.
  - intros w resp. unfold getInvite_route, try_catch, bind.
    destruct (getNextInvite env w) as [[[invite|]|e] w0];
      [|intros E; injection E as <-; known_code ..].
    destruct (status_eqb (status invite) PENDING);
      [|intros E; injection E as <-; known_code].
    destruct (checkInviteOnChain env (signer invite) w0) as [[d|e] w1];
      [|intros E; injection E as <-; known_code].
    destruct (claimed d); [|intros E; injection E as <-; known_code].
    destruct (markInviteAsUsed env (secret invite) w1) as [[b|e] w2];
      [|intros E; injection E as <-; known_code].
    destruct (getNextInvite env w2) as [[[next|]|e] w3];
      intros E; injection E as <-; known_code.
  - unfold checkInvite_route. codes_walk.
  - unfold health_route. codes_walk.
Qed.

(** X21. No handler lets an exception escape: over any sequence of
    requests, from any state, each request gets exactly one response,
    and its status code is one of 200, 201, 400, 401, 404, 409 and
    500. *)
Theorem every_request_answered (env : Env) (qs : list Request) (w : World) :
  List.length (fst (serve env qs w)) = List.length qs /\
  forall resp, In resp (fst (serve env qs w)) -> In (code resp) status_codes.
Proof.
  revert w. induction qs as [|q qs IH]; intros w.
  - split; [reflexivity | intros resp []].
  - rewrite serve_cons. cbn [fst].
    destruct (handle_answers env q w) as [r Hr].
    pose proof (handle_codes env q w r Hr) as Hcode.
    rewrite Hr. destruct (IH (snd (handle env q w))) as [Hlen Hall].
    split.
    + cbn [List.length]. rewrite Hlen. reflexivity.
    + intros resp [<-|Hin]; [exact Hcode | apply Hall; exact Hin].
Qed.

(** * Order of dispensing *)

(** X22. Invites that are [none] are handed out by ascending id: when
    two [getNextInvite] calls follow each other and a [none] invite is
    still stored after the first, both calls took a [none] invite and
    the second one has the larger id. *)
Theorem none_invites_dispensed_in_id_order
    (env : Env) (w w1 w2 : World) (a b : Invite) :
  table_ok (db w) ->
  getNextInvite env w = (Ok (Some a), w1) ->
  getNextInvite env w1 = (Ok (Some b), w2) ->
  (exists r, In r (rows (db w1)) /\ status r = NONE) ->
  id a < id b /\
  (exists n, In n (rows (db w)) /\ status n = NONE /\ id n = id a) /\
  (exists m, In m (rows (db w)) /\ status m = NONE /\ id m = id b).
Proof.
  intros Hok H1 H2 [r [Hr Hst]].
  destruct (order_by_limit1 Z.leb id (where_status NONE (rows (db w)))) as [n|] eqn:Hsel.
  - destruct (getNextInvite_none_row env w n Hsel) as [row [E1 [_ [Hida _]]]].
    rewrite E1 in H1. injection H1 as -> <-.
    pose proof (order_by_limit1_In _ _ _ _ Hsel) as Hn.
    apply where_status_In in Hn. destruct Hn as [Hn Hstn].
    destruct (order_by_limit1 Z.leb id
                (where_status NONE (rows (db (after_update env (id n) PENDING w)))))
      as [m|] eqn:Hsel2.
    + destruct (getNextInvite_none_row env _ m Hsel2) as [row2 [E2 [_ [Hidb _]]]].
      rewrite E2 in H2. injection H2 as -> _.
      pose proof (order_by_limit1_In _ _ _ _ Hsel2) as Hm.
      apply where_status_In in Hm. destruct Hm as [Hm Hstm].
      cbn [after_update db rows] in Hm. apply update_inv in Hm.
      destruct Hm as [x [Hx [[_ ->]|[Hne ->]]]]; [discriminate Hstm|].
      assert (Hle : (id n <=? id x) = true).
      { apply (order_by_limit1_least Z.leb id Z_leb_total Z_leb_trans _ _ Hsel).
        apply where_status_In. auto. }
      apply Z.leb_le in Hle.
      split; [lia|]. split.
      * exists n. auto.
      * exists x. auto.
    + apply order_by_limit1_none in Hsel2.
      exfalso. apply (proj1 (where_status_nil _ _) Hsel2 r Hr Hst).
  - rewrite (getNextInvite_no_none env w Hsel) in H1. injection H1 as _ <-.
    apply order_by_limit1_none in Hsel.
    exfalso. apply (proj1 (where_status_nil _ _) Hsel r Hr Hst).
Qed.

Lemma none_invites_dispensed_in_id_order_witness :
  let env := sample_env node_up false in
  let w := world_of [invite_A NONE; invite_B NONE; mkInvite 3 "f00d" "0xc3" NONE "2023"] in
  id (with_status PENDING "2024-01-01 00:00:00" (invite_A NONE)) <
  id (with_status PENDING "2024-01-01 00:00:01" (invite_B NONE)).
Proof.
  intros env w.
  apply (none_invites_dispensed_in_id_order env w
           (snd (getNextInvite env w))
           (snd (getNextInvite env (snd (getNextInvite env w))))).
  - split; simpl; repeat constructor; simpl; intuition discriminate.
  - reflexivity.
  - reflexivity.
  - exists (mkInvite 3 "f00d" "0xc3" NONE "2023").
    split; [right; right; left; reflexivity | reflexivity].
Defined.
